(** * Target-shooting mini-game (script.js): scoring, combo and target lifecycle

    A shallow embedding of the gameplay core of [src/script.js]: the global
    game state, the combo/scoring functions ([updateCombo], [processHit],
    [processMiss]), the target lifecycle ([spawnTarget], [removeTarget], the
    per-frame loop of [update]) and the hit pipeline ([shoot]).

    Modelling conventions.
    - JavaScript Numbers that hold integers ([score], [consecutiveHits],
      [points]) are [Z]; the other Numbers are exact rationals [Q].  Every
      multiplier of the table is a multiple of one half and every point value
      is a small integer, so the products handed to [Math.round] are exact
      in binary floating point too.
    - The JavaScript heap is explicit: meshes and bodies live in two stores
      keyed by the identifier handed out at spawn time; the tracking array,
      the scene graph and the physics world hold references into them.
    - Calls into external collaborators (console, audio, renderer, physics)
      are appended to an effect trace, in program order.  Writes to the
      score and combo text of the page are left out.
    - The physics engine, the ray caster and [Math.random] are environment:
      their results enter as inputs of the operation that consults them.
      Uuids come from the renderer, which hands out pairwise distinct ones;
      the embedding numbers the spawns. *)

From stdpp Require Import base numbers list gmap.
From Stdlib Require Import ZArith QArith Qround Lia Lqa.

Local Open Scope Z_scope.

(** ** Numbers *)

(** [a < b] on Numbers, as a boolean. *)
Definition Qltb (a b : Q) : bool := negb (Qle_bool b a).

(** [Math.round]: the integer closest to [x]; of two equally close integers
    the one nearer to plus infinity. *)
Definition Math_round (x : Q) : Z := Qfloor (x + (1 # 2)).

(** [Math.floor]. *)
Definition Math_floor (x : Q) : Z := Qfloor x.

(** A result of [Math.random()]: a Number in the half-open interval from 0
    (included) to 1 (excluded). *)
Record Draw := mkDraw {
  draw_val : Q;
  draw_range : Qle_bool 0 draw_val && Qltb draw_val 1 = true
}.

(** ** Data model *)

Record Vec3 := mkVec3 { vx : Q; vy : Q; vz : Q }.
Record Quaternion := mkQuat { qx : Q; qy : Q; qz : Q; qw : Q }.

Inductive SoundKey := hit_standard | hit_bonus | hit_penalty | miss.

Record TargetType := mkTargetType { points : Z; color : Z; sound : SoundKey }.

(** The keys of the [targetTypes] object, in property order. *)
Inductive TypeKey := STANDARD | BONUS | PENALTY.

Definition targetTypes (k : TypeKey) : TargetType :=
  match k with
  | STANDARD => mkTargetType 10 0xffa500 hit_standard
  | BONUS => mkTargetType 25 0x00ff00 hit_bonus
  | PENALTY => mkTargetType (-15) 0xff0000 hit_penalty
  end.

Definition typeKeys : list TypeKey := [STANDARD; BONUS; PENALTY].

(** The [targetData] object built by [spawnTarget].  Its fields are never
    reassigned, so the object is modelled by value; [mesh] and [body] are
    references into the stores, [type] names one of the three shared type
    descriptors and [id] is the mesh's uuid. *)
Record TargetData := mkTargetData {
  mesh : nat;
  body : nat;
  type : TypeKey;
  id : nat
}.

(** A GPU-side resource (geometry or material) and whether [dispose] has
    been called on it. *)
Inductive GpuResource := Live | Disposed.

Record Mesh := mkMesh {
  mesh_position : Vec3;
  mesh_quaternion : Quaternion;
  geometry : option GpuResource;
  material : option GpuResource;
  userData_targetData : option TargetData
}.

Record Body := mkBody {
  body_position : Vec3;
  body_quaternion : Quaternion;
  velocity : Vec3;
  angularVelocity : Vec3
}.

(** Children of the scene graph and bodies of the physics world. *)
Inductive Object3D := AmbientLight | DirectionalLight | GroundMesh | TargetMesh (uuid : nat).
Inductive BodyRef := GroundBody | TargetBody (n : nat).

(** One entry of the list returned by [raycaster.intersectObjects]. *)
Record Intersection := mkIntersection { object : Object3D; point : Vec3 }.

Inductive ConsoleMsg :=
| AssetsLoadedMsg
| StartingGameLogic
| FellOutOfBounds
| HitMsg (k : TypeKey) (pointsEarned base : Z) (combo : Q)
| MissComboReset
| HitTargetNotFound
| HitMeshNoTargetData.

(** Calls that leave the game logic, in the order the code makes them. *)
Inductive Effect :=
| console_log (m : ConsoleMsg)
| console_warn (m : ConsoleMsg)
| playSound (key : SoundKey) (position : option Vec3) (volume : Q)
| scene_add (o : Object3D)
| scene_remove (o : Object3D)
| geometry_dispose (uuid : nat)
| material_dispose (uuid : nat)
| physicsWorld_addBody (b : BodyRef)
| physicsWorld_removeBody (b : BodyRef).

#[global] Instance TypeKey_eq_dec : EqDecision TypeKey.
Proof. solve_decision. Defined.
#[global] Instance TargetData_eq_dec : EqDecision TargetData.
Proof. solve_decision. Defined.
#[global] Instance Object3D_eq_dec : EqDecision Object3D.
Proof. solve_decision. Defined.
#[global] Instance BodyRef_eq_dec : EqDecision BodyRef.
Proof. solve_decision. Defined.

(** The global variables of the script together with the heap and the external
    subsystems they reference. *)
Record World := mkWorld {
  assetsLoaded : bool;
  score : Z;
  consecutiveHits : Z;
  comboMultiplier : Q;
  targets : list TargetData;
  maxTargets : Z;
  targetSpawnInterval : Q;
  timeSinceLastSpawn : Q;
  meshes : gmap nat Mesh;
  bodies : gmap nat Body;
  scene : list Object3D;
  physicsWorld : list BodyRef;
  nextUuid : nat;
  effects : list Effect
}.

(** Field updates ([w.f = v] in the source). *)
Definition set_assetsLoaded (v : bool) (w : World) : World :=
  mkWorld v (score w) (consecutiveHits w) (comboMultiplier w) (targets w)
    (maxTargets w) (targetSpawnInterval w) (timeSinceLastSpawn w) (meshes w)
    (bodies w) (scene w) (physicsWorld w) (nextUuid w) (effects w).
Definition set_score (v : Z) (w : World) : World :=
  mkWorld (assetsLoaded w) v (consecutiveHits w) (comboMultiplier w) (targets w)
    (maxTargets w) (targetSpawnInterval w) (timeSinceLastSpawn w) (meshes w)
    (bodies w) (scene w) (physicsWorld w) (nextUuid w) (effects w).
Definition set_consecutiveHits (v : Z) (w : World) : World :=
  mkWorld (assetsLoaded w) (score w) v (comboMultiplier w) (targets w)
    (maxTargets w) (targetSpawnInterval w) (timeSinceLastSpawn w) (meshes w)
    (bodies w) (scene w) (physicsWorld w) (nextUuid w) (effects w).
Definition set_comboMultiplier (v : Q) (w : World) : World :=
  mkWorld (assetsLoaded w) (score w) (consecutiveHits w) v (targets w)
    (maxTargets w) (targetSpawnInterval w) (timeSinceLastSpawn w) (meshes w)
    (bodies w) (scene w) (physicsWorld w) (nextUuid w) (effects w).
Definition set_targets (v : list TargetData) (w : World) : World :=
  mkWorld (assetsLoaded w) (score w) (consecutiveHits w) (comboMultiplier w) v
    (maxTargets w) (targetSpawnInterval w) (timeSinceLastSpawn w) (meshes w)
    (bodies w) (scene w) (physicsWorld w) (nextUuid w) (effects w).
Definition set_targetSpawnInterval (v : Q) (w : World) : World :=
  mkWorld (assetsLoaded w) (score w) (consecutiveHits w) (comboMultiplier w)
    (targets w) (maxTargets w) v (timeSinceLastSpawn w) (meshes w)
    (bodies w) (scene w) (physicsWorld w) (nextUuid w) (effects w).
Definition set_timeSinceLastSpawn (v : Q) (w : World) : World :=
  mkWorld (assetsLoaded w) (score w) (consecutiveHits w) (comboMultiplier w)
    (targets w) (maxTargets w) (targetSpawnInterval w) v (meshes w)
    (bodies w) (scene w) (physicsWorld w) (nextUuid w) (effects w).
Definition set_meshes (v : gmap nat Mesh) (w : World) : World :=
  mkWorld (assetsLoaded w) (score w) (consecutiveHits w) (comboMultiplier w)
    (targets w) (maxTargets w) (targetSpawnInterval w) (timeSinceLastSpawn w) v
    (bodies w) (scene w) (physicsWorld w) (nextUuid w) (effects w).
Definition set_bodies (v : gmap nat Body) (w : World) : World :=
  mkWorld (assetsLoaded w) (score w) (consecutiveHits w) (comboMultiplier w)
    (targets w) (maxTargets w) (targetSpawnInterval w) (timeSinceLastSpawn w)
    (meshes w) v (scene w) (physicsWorld w) (nextUuid w) (effects w).
Definition set_scene (v : list Object3D) (w : World) : World :=
  mkWorld (assetsLoaded w) (score w) (consecutiveHits w) (comboMultiplier w)
    (targets w) (maxTargets w) (targetSpawnInterval w) (timeSinceLastSpawn w)
    (meshes w) (bodies w) v (physicsWorld w) (nextUuid w) (effects w).
Definition set_physicsWorld (v : list BodyRef) (w : World) : World :=
  mkWorld (assetsLoaded w) (score w) (consecutiveHits w) (comboMultiplier w)
    (targets w) (maxTargets w) (targetSpawnInterval w) (timeSinceLastSpawn w)
    (meshes w) (bodies w) (scene w) v (nextUuid w) (effects w).
Definition set_nextUuid (v : nat) (w : World) : World :=
  mkWorld (assetsLoaded w) (score w) (consecutiveHits w) (comboMultiplier w)
    (targets w) (maxTargets w) (targetSpawnInterval w) (timeSinceLastSpawn w)
    (meshes w) (bodies w) (scene w) (physicsWorld w) v (effects w).

(** Record one external call at the end of the trace. *)
Definition emit (e : Effect) (w : World) : World :=
  mkWorld (assetsLoaded w) (score w) (consecutiveHits w) (comboMultiplier w)
    (targets w) (maxTargets w) (targetSpawnInterval w) (timeSinceLastSpawn w)
    (meshes w) (bodies w) (scene w) (physicsWorld w) (nextUuid w)
    (effects w ++ [e]).

(** ** Arrays *)

(** [Array.prototype.indexOf] and [findIndex]: the first matching index;
    [None] stands for the source's [-1]. *)
Definition indexOf {A} `{EqDecision A} (x : A) (l : list A) : option nat :=
  fst <$> list_find (λ y, y = x) l.

Definition findIndex {A} (P : A → Prop) `{∀ x, Decision (P x)} (l : list A) : option nat :=
  fst <$> list_find P l.

(** [splice(index, 1)]: drops the element at [index]; nothing happens when
    [index] is past the end. *)
Definition splice1 {A} (index : nat) (l : list A) : list A := delete index l.

(** Removal as the renderer's [Object3D.remove] and the physics engine's
    [World.removeBody] do it: [indexOf], then [splice] when found. *)
Definition remove_child {A} `{EqDecision A} (x : A) (l : list A) : list A :=
  match indexOf x l with
  | Some i => splice1 i l
  | None => l
  end.

(** ** Combo and scoring *)

(** [COMBO_THRESHOLDS], in the order [for ... in] enumerates its keys
    (integer-like keys ascending). *)
Definition COMBO_THRESHOLDS : list (Z * Q) :=
  [(1, 1%Q); (5, (3 # 2)%Q); (10, 2%Q); (15, 3%Q)].

(** [COMBO_THRESHOLDS[k]]; every key the code reads is present. *)
Fixpoint threshold_at (k : Z) (table : list (Z * Q)) : Q :=
  match table with
  | [] => 0%Q
  | (k', v) :: rest => if k' =? k then v else threshold_at k rest
  end.

Definition updateCombo (w : World) : World :=
  let newMultiplier :=
    fold_left
      (λ newMultiplier hits,
         if hits <=? consecutiveHits w
         then threshold_at hits COMBO_THRESHOLDS
         else newMultiplier)
      (map fst COMBO_THRESHOLDS)
      (threshold_at 1 COMBO_THRESHOLDS) in
  set_comboMultiplier newMultiplier w.

Definition processHit (targetData : TargetData) (hitPosition : Vec3) (w : World) : World :=
  let w := set_consecutiveHits (consecutiveHits w + 1) w in
  let w := updateCombo w in
  let ty := targetTypes (type targetData) in
  let pointsEarned := Math_round (inject_Z (points ty) * comboMultiplier w) in
  let w := set_score (score w + pointsEarned) w in
  let w := emit (console_log (HitMsg (type targetData) pointsEarned (points ty) (comboMultiplier w))) w in
  emit (playSound (sound ty) (Some hitPosition) 1%Q) w.

Definition processMiss (w : World) : World :=
  let w := if 0 <? consecutiveHits w then emit (console_log MissComboReset) w else w in
  let w := set_consecutiveHits 0 w in
  let w := updateCombo w in
  emit (playSound miss None (1 # 2)%Q) w.

Definition startGameLogic (w : World) : World :=
  let w := emit (console_log StartingGameLogic) w in
  let w := set_score 0 w in
  let w := set_consecutiveHits 0 w in
  updateCombo w.

(** ** Target lifecycle *)

Definition dispose (r : option GpuResource) : option GpuResource :=
  match r with
  | Some _ => Some Disposed
  | None => None
  end.

Definition dispose_geometry (m : Mesh) : Mesh :=
  mkMesh (mesh_position m) (mesh_quaternion m) (dispose (geometry m)) (material m)
    (userData_targetData m).

Definition dispose_material (m : Mesh) : Mesh :=
  mkMesh (mesh_position m) (mesh_quaternion m) (geometry m) (dispose (material m))
    (userData_targetData m).

(** Is the resource selected by [f] present on the mesh behind [u]? *)
Definition has_resource (f : Mesh → option GpuResource) (u : nat) (w : World) : bool :=
  match meshes w !! u ≫= f with
  | Some _ => true
  | None => false
  end.

Definition removeTarget (targetData : TargetData) (index : nat) (w : World) : World :=
  let u := mesh targetData in
  (* scene.remove(targetData.mesh) *)
  let w := emit (scene_remove (TargetMesh u)) w in
  let w := set_scene (remove_child (TargetMesh u) (scene w)) w in
  (* if (mesh.geometry) mesh.geometry.dispose() *)
  let w := if has_resource geometry u w
           then set_meshes (alter dispose_geometry u (meshes w)) (emit (geometry_dispose u) w)
           else w in
  (* if (mesh.material) mesh.material.dispose() *)
  let w := if has_resource material u w
           then set_meshes (alter dispose_material u (meshes w)) (emit (material_dispose u) w)
           else w in
  (* physicsWorld.removeBody(targetData.body) *)
  let w := emit (physicsWorld_removeBody (TargetBody (body targetData))) w in
  let w := set_physicsWorld (remove_child (TargetBody (body targetData)) (physicsWorld w)) w in
  (* targets.splice(index, 1) *)
  set_targets (splice1 index (targets w)) w.

(** [typeKeys[Math.floor(Math.random() * typeKeys.length)]]; the index is
    always in range (lemma [typeKeys_index_in_range]). *)
Definition randomTypeKey (r : Draw) : TypeKey :=
  let i := Math_floor (draw_val r * inject_Z (Z.of_nat (length typeKeys))) in
  default STANDARD (typeKeys !! Z.to_nat i).

Definition spawnX (r : Draw) : Q := ((draw_val r - (1 # 2)) * 20)%Q.
Definition spawnY (r : Draw) : Q := (draw_val r * 5 + 2)%Q.
Definition spawnZ (r : Draw) : Q := ((draw_val r - (8 # 10)) * 15)%Q.

Definition identity_quaternion : Quaternion := mkQuat 0 0 0 1.

(** [spawnTarget]; [rnd i] is the result of the call's [i]-th use of
    [Math.random()], counted from 0.  The mesh's uuid and the body's id are
    the next unused identifier. *)
Definition spawnTarget (rnd : nat → Draw) (w : World) : World :=
  let type := randomTypeKey (rnd 0%nat) in
  let uuid := nextUuid w in
  let w := set_nextUuid (S uuid) w in
  let position := mkVec3 (spawnX (rnd 1%nat)) (spawnY (rnd 2%nat)) (spawnZ (rnd 3%nat)) in
  let body :=
    mkBody position identity_quaternion
      (mkVec3 ((draw_val (rnd 4%nat) - (1 # 2)) * 2) (draw_val (rnd 5%nat) * 3)
              ((draw_val (rnd 6%nat) - (1 # 2)) * 2))%Q
      (mkVec3 ((draw_val (rnd 7%nat) - (1 # 2)) * 3) ((draw_val (rnd 8%nat) - (1 # 2)) * 3)
              ((draw_val (rnd 9%nat) - (1 # 2)) * 3))%Q in
  let targetData := mkTargetData uuid uuid type uuid in
  let mesh := mkMesh position identity_quaternion (Some Live) (Some Live) (Some targetData) in
  let w := set_meshes (<[uuid := mesh]> (meshes w)) w in
  let w := set_bodies (<[uuid := body]> (bodies w)) w in
  (* scene.add(mesh); physicsWorld.addBody(body); targets.push(targetData) *)
  let w := set_scene (scene w ++ [TargetMesh uuid]) (emit (scene_add (TargetMesh uuid)) w) in
  let w := set_physicsWorld (physicsWorld w ++ [TargetBody uuid])
             (emit (physicsWorld_addBody (TargetBody uuid)) w) in
  set_targets (targets w ++ [targetData]) w.

(** The callback [update] hands to [targets.forEach]. *)
Definition sync_mesh (b : Body) (m : Mesh) : Mesh :=
  mkMesh (body_position b) (body_quaternion b) (geometry m) (material m)
    (userData_targetData m).

Definition syncCallback (targetData : TargetData) (index : nat) (w : World) : World :=
  match bodies w !! body targetData with
  | None => w
  | Some b =>
      let w := set_meshes (alter (sync_mesh b) (mesh targetData) (meshes w)) w in
      if Qltb (vy (body_position b)) (-10)
      then removeTarget targetData index (emit (console_log FellOutOfBounds) w)
      else w
  end.

(** [Array.prototype.forEach] on the live [targets] array: the length is
    read once, before the first call; index [k] is visited only if the
    array still has an element there when its turn comes. *)
Fixpoint forEach_from (callback : TargetData → nat → World → World)
    (remaining k : nat) (w : World) : World :=
  match remaining with
  | O => w
  | S remaining' =>
      let w :=
        match targets w !! k with
        | Some kValue => callback kValue k w
        | None => w
        end in
      forEach_from callback remaining' (S k) w
  end.

Definition targets_forEach (callback : TargetData → nat → World → World) (w : World) : World :=
  forEach_from callback (length (targets w)) 0%nat w.

(** [physicsWorld.step]: the engine moves the bodies registered in the
    world; [integrate] is what it does to each of them this frame. *)
Definition physicsWorld_step (integrate : nat → Body → Body) (w : World) : World :=
  set_bodies
    (map_imap (λ n b, Some (if bool_decide (TargetBody n ∈ physicsWorld w)
                            then integrate n b else b))
       (bodies w)) w.

Definition update (deltaTime : Q) (integrate : nat → Body → Body) (rnd : nat → Draw)
    (w : World) : World :=
  if negb (assetsLoaded w) then w else
  let w := physicsWorld_step integrate w in
  let w := set_timeSinceLastSpawn (timeSinceLastSpawn w + deltaTime)%Q w in
  let w :=
    if Qltb (targetSpawnInterval w) (timeSinceLastSpawn w)
       && (Z.of_nat (length (targets w)) <? maxTargets w)
    then
      let w := spawnTarget rnd w in
      let w := set_timeSinceLastSpawn 0%Q w in
      set_targetSpawnInterval ((8 # 10) + draw_val (rnd 10%nat) * (7 # 10))%Q w
    else w in
  targets_forEach syncCallback w.

(** ** Hit resolution *)

(** [hitObject.userData.targetData]. *)
Definition userData_of (o : Object3D) (w : World) : option TargetData :=
  match o with
  | TargetMesh u => meshes w !! u ≫= userData_targetData
  | _ => None
  end.

(** [shoot]; [intersects] is the list the ray caster returns for this
    pointer event. *)
Definition shoot (intersects : list Intersection) (w : World) : World :=
  if negb (assetsLoaded w) then w else
  match intersects with
  | i0 :: _ =>
      let hitObject := object i0 in
      let hitPoint := point i0 in
      match userData_of hitObject w with
      | Some targetData =>
          let w := processHit targetData hitPoint w in
          match findIndex (λ t, id t = id targetData) (targets w) with
          | Some targetIndex => removeTarget targetData targetIndex w
          | None => emit (console_warn HitTargetNotFound) w
          end
      | None => processMiss (emit (console_warn HitMeshNoTargetData) w)
      end
  | [] => processMiss w
  end.

(** ** Sessions *)

(** The state [init()] leaves behind: the module-level initial values, the
    scene holding the two lights and the ground, the physics world holding
    the ground body. *)
Definition init : World :=
  mkWorld false 0 0 1%Q [] 15 1%Q 0%Q ∅ ∅
    [AmbientLight; DirectionalLight; GroundMesh] [GroundBody] 0%nat [].

(** The loading manager's completion callback. *)
Definition onLoad (w : World) : World :=
  startGameLogic (emit (console_log AssetsLoadedMsg) (set_assetsLoaded true w)).

Inductive Event :=
| AssetsReady
| Frame (deltaTime : Q) (integrate : nat → Body → Body) (rnd : nat → Draw)
| PointerDown (intersects : list Intersection).

Definition step (w : World) (e : Event) : World :=
  match e with
  | AssetsReady => onLoad w
  | Frame deltaTime integrate rnd => update deltaTime integrate rnd w
  | PointerDown intersects => shoot intersects w
  end.

Definition run (events : list Event) (w : World) : World := fold_left step events w.

(** ** Vocabulary of the properties *)

(** A resolved shot, as the scoring engine sees it. *)
Inductive Outcome :=
| Hit (targetData : TargetData) (hitPosition : Vec3)
| Miss.

Definition resolve (w : World) (o : Outcome) : World :=
  match o with
  | Hit targetData hitPosition => processHit targetData hitPosition w
  | Miss => processMiss w
  end.

Definition play (outcomes : list Outcome) (w : World) : World :=
  fold_left resolve outcomes w.

(** The threshold table as the specification prints it. *)
Definition table_multiplier (n : Z) : Q :=
  if n <? 5 then 1%Q else if n <? 10 then (3 # 2)%Q else if n <? 15 then 2%Q else 3%Q.

Definition is_hit (o : Outcome) : bool :=
  match o with
  | Hit _ _ => true
  | Miss => false
  end.

(** Length of the run of hits that ends a history (most recent first). *)
Fixpoint streak (recent_first : list Outcome) : Z :=
  match recent_first with
  | Hit _ _ :: older => 1 + streak older
  | _ => 0
  end.

(** The score the specification expects: every hit contributes its base
    points times the multiplier of the streak it completes, rounded; misses
    contribute nothing.  [past] is the history so far, most recent first. *)
Fixpoint expected_score (past rest : list Outcome) : Z :=
  match rest with
  | [] => 0
  | Hit targetData p :: rest' =>
      Math_round (inject_Z (points (targetTypes (type targetData)))
                  * table_multiplier (streak (Hit targetData p :: past)))
      + expected_score (Hit targetData p :: past) rest'
  | Miss :: rest' => expected_score (Miss :: past) rest'
  end.

(** Nearest integer, ties away from zero. *)
Definition round_half_away_from_zero (x : Q) : Z :=
  if Qle_bool 0 x then Qfloor (x + (1 # 2)) else Qceiling (x - (1 # 2)).

(** Points added to the score by a hit. *)
Definition pointsEarned (targetData : TargetData) (hitPosition : Vec3) (w : World) : Z :=
  score (processHit targetData hitPosition w) - score w.

Definition origin : Vec3 := mkVec3 0 0 0.
Definition a_target (k : TypeKey) : TargetData := mkTargetData 0 0 k 0.

(** Four hits on STANDARD targets in a fresh session: the next hit is the
    fifth of the streak. *)
Definition four_hits : World :=
  play (replicate 4 (Hit (a_target STANDARD) origin)) (onLoad init).

(** Two results [Math.random()] can return. *)
Definition draw_0 : Draw := mkDraw 0 eq_refl.
Definition draw_8_10 : Draw := mkDraw (8 # 10) eq_refl.

(** The position handed to [mesh.position.set] by the spawn that consumes
    the draws [rnd]. *)
Definition spawn_position (rnd : nat → Draw) : Vec3 :=
  mkVec3 (spawnX (rnd 1%nat)) (spawnY (rnd 2%nat)) (spawnZ (rnd 3%nat)).

(** ** Vocabulary of the lifecycle properties *)

(** Identifiers of the tracked targets, in array order. *)
Definition ids (w : World) : list nat := id <$> targets w.

(** [removeTarget] is the only caller of [scene.remove]: the uuids handed to
    it list the teardowns, one entry per call. *)
Definition teardown_of (e : Effect) : option nat :=
  match e with
  | scene_remove (TargetMesh u) => Some u
  | _ => None
  end.

Definition teardowns (trace : list Effect) : list nat := omap teardown_of trace.

(** [processHit] is the only writer of the hit line on the console and
    [processMiss] the only caller of [playSound('miss', ...)]. *)
Definition is_hit_record (e : Effect) : bool :=
  match e with
  | console_log (HitMsg _ _ _ _) => true
  | _ => false
  end.

Definition is_miss_record (e : Effect) : bool :=
  match e with
  | playSound miss _ _ => true
  | _ => false
  end.

Definition is_warning (e : Effect) : bool :=
  match e with
  | console_warn _ => true
  | _ => false
  end.

Fixpoint count_of (f : Effect → bool) (trace : list Effect) : nat :=
  match trace with
  | [] => 0%nat
  | e :: trace' => ((if f e then 1 else 0) + count_of f trace')%nat
  end.

(** The population cap. *)
Definition within_cap (w : World) : Prop :=
  Z.of_nat (length (targets w)) <= maxTargets w.

(** Consistency of the tracking array with the heap, the scene graph, the
    physics world and the teardown history. *)
Record consistent (w : World) : Prop := mkConsistent {
  ids_unique : NoDup (ids w);
  tracked_linked : ∀ td, td ∈ targets w →
    ∃ m, meshes w !! mesh td = Some m
         ∧ userData_targetData m = Some td
         ∧ geometry m = Some Live ∧ material m = Some Live
         ∧ is_Some (bodies w !! body td);
  store_linked : ∀ u m, meshes w !! u = Some m →
    (u < nextUuid w)%nat
    ∧ ∀ td, userData_targetData m = Some td → td = mkTargetData u u (type td) u;
  scene_tracks : scene w = [AmbientLight; DirectionalLight; GroundMesh] ++ (TargetMesh <$> ids w);
  physics_tracks : physicsWorld w = GroundBody :: (TargetBody <$> ids w);
  teardowns_unique : NoDup (teardowns (effects w));
  teardowns_gone : ∀ u, u ∈ teardowns (effects w) → (u < nextUuid w)%nat ∧ u ∉ ids w
}.

(** What a finished teardown of [td] leaves behind. *)
Definition torn_down (td : TargetData) (w : World) : Prop :=
  (td ∉ targets w)
  ∧ (TargetMesh (mesh td) ∉ scene w)
  ∧ (TargetBody (body td) ∉ physicsWorld w)
  ∧ (meshes w !! mesh td ≫= geometry) = Some Disposed
  ∧ (meshes w !! mesh td ≫= material) = Some Disposed.

(** Every remaining reference is backed on both sides: a tracked target is
    registered with the renderer and the physics engine, and no target mesh
    or target body is registered without being tracked. *)
Definition no_dangling (w : World) : Prop :=
  (∀ u, TargetMesh u ∈ scene w ↔ ∃ td, td ∈ targets w ∧ mesh td = u)
  ∧ (∀ n, TargetBody n ∈ physicsWorld w ↔ ∃ td, td ∈ targets w ∧ body td = n).

(** ** Sample sessions *)

Definition rest_physics (n : nat) (b : Body) : Body := b.

(** The engine drops every body to height -11. *)
Definition drop_physics (n : nat) (b : Body) : Body :=
  mkBody (mkVec3 (vx (body_position b)) (-11) (vz (body_position b)))
    (body_quaternion b) (velocity b) (angularVelocity b).

(** Assets load, then two frames two seconds apart: two targets are
    tracked, with uuids 0 and 1. *)
Definition two_targets : World :=
  run [AssetsReady; Frame 2 rest_physics (λ _, draw_8_10); Frame 2 rest_physics (λ _, draw_0)] init.

(** ** Vocabulary of the session-level properties *)

(** The three scoring variables. *)
Definition scoring (w : World) : Z * Z * Q :=
  (score w, consecutiveHits w, comboMultiplier w).

(** What [shoot] makes of the ray caster's answer: a hit on the target data
    found on the nearest object, a miss otherwise. *)
Definition outcome_of (intersects : list Intersection) (w : World) : Outcome :=
  match intersects with
  | i0 :: _ =>
      match userData_of (object i0) w with
      | Some targetData => Hit targetData (point i0)
      | None => Miss
      end
  | [] => Miss
  end.

(** The outcomes of the shots of a session, in order; pointer events that
    arrive before the assets are ready are ignored by [shoot]. *)
Fixpoint outcomes (events : list Event) (w : World) : list Outcome :=
  match events with
  | [] => []
  | e :: events' =>
      match e with
      | PointerDown intersects =>
          if assetsLoaded w then [outcome_of intersects w] else []
      | _ => []
      end ++ outcomes events' (step w e)
  end.

Definition is_AssetsReady (e : Event) : bool :=
  match e with
  | AssetsReady => true
  | _ => false
  end.

(** What the prune loop and [removeTarget] leave alone. *)
Record loop_frame (w w' : World) : Prop := mkLoopFrame {
  frame_assetsLoaded : assetsLoaded w' = assetsLoaded w;
  frame_scoring : scoring w' = scoring w;
  frame_maxTargets : maxTargets w' = maxTargets w;
  frame_targetSpawnInterval : targetSpawnInterval w' = targetSpawnInterval w;
  frame_timeSinceLastSpawn : timeSinceLastSpawn w' = timeSinceLastSpawn w;
  frame_bodies : bodies w' = bodies w;
  frame_nextUuid : nextUuid w' = nextUuid w
}.

(** The spawn test of [update], on the timer already advanced. *)
Definition spawn_due (deltaTime : Q) (w : World) : bool :=
  Qltb (targetSpawnInterval w) (timeSinceLastSpawn w + deltaTime)
  && (Z.of_nat (length (targets w)) <? maxTargets w).

(** The part of [update] that precedes the target loop: physics step, spawn
    timer, conditional spawn. *)
Definition advance (deltaTime : Q) (integrate : nat → Body → Body) (rnd : nat → Draw)
    (w : World) : World :=
  let w := physicsWorld_step integrate w in
  let w := set_timeSinceLastSpawn (timeSinceLastSpawn w + deltaTime)%Q w in
  if Qltb (targetSpawnInterval w) (timeSinceLastSpawn w)
     && (Z.of_nat (length (targets w)) <? maxTargets w)
  then
    let w := spawnTarget rnd w in
    let w := set_timeSinceLastSpawn 0%Q w in
    set_targetSpawnInterval ((8 # 10) + draw_val (rnd 10%nat) * (7 # 10))%Q w
  else w.


(** ** Vocabulary of the prune pass *)

(** The out-of-bounds test of the loop body, [body.position.y < -10]. *)
Definition below_floor (w : World) (td : TargetData) : bool :=
  match bodies w !! body td with
  | Some b => Qltb (vy (body_position b)) (-10)
  | None => false
  end.

(** The mesh of [td] shows where its body is. *)
Definition synchronized (w : World) (td : TargetData) : Prop :=
  ∃ m b, meshes w !! mesh td = Some m ∧ bodies w !! body td = Some b
         ∧ mesh_position m = body_position b
         ∧ mesh_quaternion m = body_quaternion b.

(** The engine lifts every body to height 3. *)
Definition lift_physics (n : nat) (b : Body) : Body :=
  mkBody (mkVec3 (vx (body_position b)) 3 (vz (body_position b)))
    (body_quaternion b) (velocity b) (angularVelocity b).

(** ** Vocabulary of the resource accounting *)

(** Projections of the effect trace: the uuids passed, in order, to
    [scene.add], [physicsWorld.addBody], [geometry.dispose],
    [material.dispose] and [physicsWorld.removeBody]. *)
Definition spawn_of (e : Effect) : option nat :=
  match e with
  | scene_add (TargetMesh u) => Some u
  | _ => None
  end.

Definition body_addition_of (e : Effect) : option nat :=
  match e with
  | physicsWorld_addBody (TargetBody n) => Some n
  | _ => None
  end.

Definition geometry_disposal_of (e : Effect) : option nat :=
  match e with
  | geometry_dispose u => Some u
  | _ => None
  end.

Definition material_disposal_of (e : Effect) : option nat :=
  match e with
  | material_dispose u => Some u
  | _ => None
  end.

Definition body_removal_of (e : Effect) : option nat :=
  match e with
  | physicsWorld_removeBody (TargetBody n) => Some n
  | _ => None
  end.

(** An effect that neither registers nor releases anything. *)
Definition quiet (e : Effect) : Prop :=
  teardown_of e = None ∧ spawn_of e = None ∧ body_addition_of e = None
  ∧ geometry_disposal_of e = None ∧ material_disposal_of e = None
  ∧ body_removal_of e = None.

(** Every uuid handed out so far is accounted for. *)
Record accounted (w : World) : Prop := mkAccounted {
  spawned_accounted : ids w ++ teardowns (effects w) ≡ₚ seq 0 (nextUuid w);
  spawns_logged : omap spawn_of (effects w) = seq 0 (nextUuid w);
  bodies_logged : omap body_addition_of (effects w) = seq 0 (nextUuid w);
  geometry_released : omap geometry_disposal_of (effects w) = teardowns (effects w);
  material_released : omap material_disposal_of (effects w) = teardowns (effects w);
  bodies_released : omap body_removal_of (effects w) = teardowns (effects w);
  retired_released : ∀ u, u ∈ teardowns (effects w) →
    ∃ m ty, meshes w !! u = Some m
            ∧ geometry m = Some Disposed ∧ material m = Some Disposed
            ∧ userData_targetData m = Some (mkTargetData u u ty u)
}.

(** Two targets spawned, then a frame in which both fall out of bounds:
    target 0 is torn down, target 1 is still tracked. *)
Definition one_retired : World :=
  run [AssetsReady; Frame 2 rest_physics (λ _, draw_8_10); Frame 2 rest_physics (λ _, draw_0);
       Frame 0 drop_physics (λ _, draw_0)] init.

(** ** Pointer coordinates *)

(** Normalized device coordinates of the pointer, as [shoot] computes
    them from the client coordinates and the viewport size. *)
Definition pointer_x (clientX innerWidth : Q) : Q :=
  ((clientX / innerWidth) * 2 - 1)%Q.

Definition pointer_y (clientY innerHeight : Q) : Q :=
  (- (clientY / innerHeight) * 2 + 1)%Q.

(** ** Sounds *)

(** The arguments of the calls of [playSound], in order. *)
Definition sound_of (e : Effect) : option (SoundKey * option Vec3 * Q) :=
  match e with
  | playSound key position volume => Some (key, position, volume)
  | _ => None
  end.

Definition sounds (trace : list Effect) : list (SoundKey * option Vec3 * Q) :=
  omap sound_of trace.

(** The sound a shot with the given outcome asks for. *)
Definition sound_for (o : Outcome) : SoundKey * option Vec3 * Q :=
  match o with
  | Hit targetData hitPosition =>
      (sound (targetTypes (type targetData)), Some hitPosition, 1%Q)
  | Miss => (miss, None, (1 # 2)%Q)
  end.

(** * Properties *)

(** ** Field lemmas for the scoring functions *)

Lemma updateCombo_multiplier (w : World) :
  comboMultiplier (updateCombo w) = table_multiplier (consecutiveHits w).
Proof.
  unfold updateCombo, table_multiplier; cbn.
  repeat match goal with
         | |- context [?a <=? ?b] => destruct (Z.leb_spec a b)
         | |- context [?a <? ?b] => destruct (Z.ltb_spec a b)
         end; try reflexivity; lia.
Qed.

Lemma processHit_consecutiveHits targetData p w :
  consecutiveHits (processHit targetData p w) = consecutiveHits w + 1.
Proof. reflexivity. Qed.

Lemma processHit_comboMultiplier targetData p w :
  comboMultiplier (processHit targetData p w) = table_multiplier (consecutiveHits w + 1).
Proof.
  change (comboMultiplier (processHit targetData p w))
    with (comboMultiplier (updateCombo (set_consecutiveHits (consecutiveHits w + 1) w))).
  apply updateCombo_multiplier.
Qed.

Lemma processHit_score targetData p w :
  score (processHit targetData p w)
  = score w + Math_round (inject_Z (points (targetTypes (type targetData)))
                          * table_multiplier (consecutiveHits w + 1)).
Proof.
  change (score (processHit targetData p w))
    with (score w + Math_round (inject_Z (points (targetTypes (type targetData)))
            * comboMultiplier (updateCombo (set_consecutiveHits (consecutiveHits w + 1) w)))).
  by rewrite updateCombo_multiplier.
Qed.

Lemma processMiss_consecutiveHits w : consecutiveHits (processMiss w) = 0.
Proof. unfold processMiss. by destruct (0 <? consecutiveHits w). Qed.

Lemma processMiss_score w : score (processMiss w) = score w.
Proof. unfold processMiss. by destruct (0 <? consecutiveHits w). Qed.

Lemma play_score_from (rest past : list Outcome) (w : World) :
  consecutiveHits w = streak past →
  score (play rest w) = score w + expected_score past rest.
Proof.
  revert past w. induction rest as [|o rest IH]; intros past w Hc.
  - cbn. lia.
  - change (play (o :: rest) w) with (play rest (resolve w o)).
    destruct o as [targetData p|]; cbn [resolve expected_score].
    + rewrite (IH (Hit targetData p :: past)).
      * rewrite processHit_score, Hc.
        replace (streak past + 1) with (1 + streak past) by lia.
        cbn [streak]. lia.
      * rewrite processHit_consecutiveHits, Hc. cbn [streak]. lia.
    + rewrite (IH (Miss :: past)).
      * rewrite processMiss_score. lia.
      * by rewrite processMiss_consecutiveHits.
Qed.

Lemma Math_round_nearest (x : Q) :
  (x - (1 # 2) < inject_Z (Math_round x))%Q ∧ (inject_Z (Math_round x) <= x + (1 # 2))%Q.
Proof.
  unfold Math_round. split.
  - pose proof (Qlt_floor (x + (1 # 2))) as H.
    rewrite inject_Z_plus in H.
    apply (Qplus_lt_l _ _ 1%Q). 
    assert (x - (1 # 2) + 1 == x + (1 # 2))%Q as E by ring.
    rewrite E. exact H.
  - apply Qfloor_le.
Qed.

(** ** Combo multiplier *)

(** C1. Whatever the value of [consecutiveHits], [updateCombo] sets the
    multiplier to the table's value: 1.0 on 0..4, 1.5 on 5..9, 2.0 on 10..14
    and 3.0 from 15 on. *)
Theorem updateCombo_threshold_table (w : World) :
  (0 <= consecutiveHits w <= 4 → comboMultiplier (updateCombo w) = 1%Q)
  ∧ (5 <= consecutiveHits w <= 9 → comboMultiplier (updateCombo w) = (3 # 2)%Q)
  ∧ (10 <= consecutiveHits w <= 14 → comboMultiplier (updateCombo w) = 2%Q)
  ∧ (15 <= consecutiveHits w → comboMultiplier (updateCombo w) = 3%Q).
Proof.
  rewrite updateCombo_multiplier. unfold table_multiplier.
  repeat split; intros H;
    repeat match goal with
           | |- context [?a <? ?b] => destruct (Z.ltb_spec a b)
           end; try reflexivity; lia.
Qed.

Lemma updateCombo_threshold_table_witness :
  comboMultiplier (updateCombo (set_consecutiveHits 0 init)) = 1%Q
  ∧ comboMultiplier (updateCombo (set_consecutiveHits 7 init)) = (3 # 2)%Q
  ∧ comboMultiplier (updateCombo (set_consecutiveHits 12 init)) = 2%Q
  ∧ comboMultiplier (updateCombo (set_consecutiveHits 40 init)) = 3%Q.
Proof.
  split; [|split; [|split]].
  - apply (updateCombo_threshold_table (set_consecutiveHits 0 init)). simpl. lia.
  - apply (updateCombo_threshold_table (set_consecutiveHits 7 init)). simpl. lia.
  - apply (updateCombo_threshold_table (set_consecutiveHits 12 init)). simpl. lia.
  - apply (updateCombo_threshold_table (set_consecutiveHits 40 init)). simpl. lia.
Defined.

(** ** Score of a session *)

(** C2. From a fresh session, after any sequence of hits and misses the
    score is the sum, over the hits, of the rounded product of the hit's base
    points and the multiplier of the streak counted with that hit included;
    a miss starts the count again from zero. *)
Theorem score_is_sum_of_hit_points (w : World) (outcomes : list Outcome) :
  score (play outcomes (startGameLogic w)) = expected_score [] outcomes.
Proof.
  rewrite (play_score_from outcomes []); [|reflexivity].
  change (score (startGameLogic w)) with 0. lia.
Qed.

(** ** Rounding of the points of a hit *)

(** C3, as stated, fails: a PENALTY target hit as the fifth of a streak
    earns -22, where rounding -22.5 away from zero gives -23. *)
Lemma penalty_tie_not_rounded_away_from_zero :
  comboMultiplier (processHit (a_target PENALTY) origin four_hits) = (3 # 2)%Q
  ∧ pointsEarned (a_target PENALTY) origin four_hits = -22
  ∧ round_half_away_from_zero
      (inject_Z (points (targetTypes PENALTY))
       * comboMultiplier (processHit (a_target PENALTY) origin four_hits)) = -23
  ∧ pointsEarned (a_target PENALTY) origin four_hits
    ≠ round_half_away_from_zero
        (inject_Z (points (targetTypes PENALTY))
         * comboMultiplier (processHit (a_target PENALTY) origin four_hits)).
Proof. repeat split; vm_compute; congruence. Qed.

(** C3, amended. The points earned on a hit are the product of the type's
    points and the multiplier in force, rounded to the nearest integer with
    ties towards plus infinity; whenever the type's points are not negative
    this is also the rounding away from zero. *)
Theorem pointsEarned_rounds_half_up (targetData : TargetData) (p : Vec3) (w : World) :
  let x := (inject_Z (points (targetTypes (type targetData)))
            * comboMultiplier (processHit targetData p w))%Q in
  comboMultiplier (processHit targetData p w) = table_multiplier (consecutiveHits w + 1)
  ∧ (x - (1 # 2) < inject_Z (pointsEarned targetData p w))%Q
  ∧ (inject_Z (pointsEarned targetData p w) <= x + (1 # 2))%Q
  ∧ (0 <= points (targetTypes (type targetData)) →
     pointsEarned targetData p w = round_half_away_from_zero x).
Proof.
  cbv zeta. unfold pointsEarned.
  rewrite processHit_score, processHit_comboMultiplier.
  set (m := table_multiplier (consecutiveHits w + 1)).
  set (x := (inject_Z (points (targetTypes (type targetData))) * m)%Q).
  replace (score w + Math_round x - score w) with (Math_round x) by lia.
  split; [reflexivity|].
  destruct (Math_round_nearest x) as [Hlo Hhi].
  repeat split; try assumption.
  intros Hpos. unfold round_half_away_from_zero.
  assert (0 <= x)%Q as Hx.
  { subst x. apply Qmult_le_0_compat.
    - change 0%Q with (inject_Z 0). by rewrite <- Zle_Qle.
    - subst m. unfold table_multiplier.
      repeat match goal with
             | |- context [?a <? ?b] => destruct (a <? b)
             end; by vm_compute. }
  apply Qle_bool_iff in Hx. by rewrite Hx.
Qed.

Lemma pointsEarned_rounds_half_up_witness :
  pointsEarned (a_target BONUS) origin four_hits
  = round_half_away_from_zero
      (inject_Z (points (targetTypes BONUS))
       * comboMultiplier (processHit (a_target BONUS) origin four_hits)).
Proof.
  apply (pointsEarned_rounds_half_up (a_target BONUS) origin four_hits).
  simpl. lia.
Defined.

(** ** Spawn positions *)

Lemma draw_bounds (r : Draw) : (0 <= draw_val r)%Q ∧ (draw_val r < 1)%Q.
Proof.
  destruct r as [q Hq]; cbn.
  apply andb_prop in Hq as [H0 H1]. split.
  - by apply Qle_bool_iff.
  - unfold Qltb in H1. apply negb_true_iff in H1.
    apply Qnot_le_lt. intros Hle. apply Qle_bool_iff in Hle. congruence.
Qed.

Lemma typeKeys_index_in_range (r : Draw) :
  ∃ k, typeKeys !! Z.to_nat (Math_floor (draw_val r * inject_Z (Z.of_nat (length typeKeys)))) = Some k.
Proof.
  destruct (draw_bounds r) as [H0 H1].
  apply lookup_lt_is_Some_2. cbn [typeKeys length].
  unfold Math_floor.
  change (Z.of_nat 3) with 3.
  assert (Qfloor (draw_val r * inject_Z 3) < 3) as Hlt.
  { rewrite Zlt_Qlt. eapply Qle_lt_trans; [apply Qfloor_le|].
    change (inject_Z 3) with 3%Q. lra. }
  lia.
Qed.

Lemma spawnTarget_mesh (rnd : nat → Draw) (w : World) :
  meshes (spawnTarget rnd w) !! nextUuid w
  = Some (mkMesh (spawn_position rnd) identity_quaternion (Some Live) (Some Live)
            (Some (mkTargetData (nextUuid w) (nextUuid w) (randomTypeKey (rnd 0%nat)) (nextUuid w)))).
Proof. unfold spawnTarget; cbn. apply lookup_insert_eq. Qed.

(** The ranges the three formulas really cover. *)
Lemma spawn_position_ranges (rnd : nat → Draw) :
  (-10 <= vx (spawn_position rnd) < 10)%Q
  ∧ (2 <= vy (spawn_position rnd) < 7)%Q
  ∧ (-12 <= vz (spawn_position rnd) < 3)%Q.
Proof.
  unfold spawn_position, spawnX, spawnY, spawnZ; cbn.
  destruct (draw_bounds (rnd 1%nat)), (draw_bounds (rnd 2%nat)), (draw_bounds (rnd 3%nat)).
  repeat split; lra.
Qed.

(** C4. The spawn whose depth draw is 0.8 places the target at depth 0,
    which is outside the range -12 to -3 that the source documents for
    [spawnZ]. *)
Theorem spawn_depth_outside_documented_range :
  ∃ m, meshes (spawnTarget (λ _, draw_8_10) (onLoad init)) !! 0%nat = Some m
       ∧ (vz (mesh_position m) == 0)%Q
       ∧ ¬ (-12 <= vz (mesh_position m) <= -3)%Q.
Proof.
  eexists. split; [apply (spawnTarget_mesh (λ _, draw_8_10) (onLoad init))|].
  cbn. split; [reflexivity|]. intros [_ H]. revert H. by vm_compute.
Qed.

(** ** Arrays *)

Section arrays.
Context {A : Type} `{EqDecision A}.
Implicit Types (l : list A) (x : A).

Lemma indexOf_NoDup l i x : NoDup l → l !! i = Some x → indexOf x l = Some i.
Proof.
  intros Hnd Hi. unfold indexOf.
  assert (list_find (λ y, y = x) l = Some (i, x)) as ->; [|done].
  apply list_find_Some. split_and!; [done..|].
  intros j y Hj Hlt ->.
  pose proof (NoDup_lookup _ _ _ _ Hnd Hi Hj). lia.
Qed.

Lemma indexOf_absent l x : x ∉ l → indexOf x l = None.
Proof.
  intros Hx. unfold indexOf.
  assert (list_find (λ y, y = x) l = None) as ->; [|done].
  apply list_find_None, Forall_forall. by intros y Hy ->.
Qed.

Lemma remove_child_NoDup l i x : NoDup l → l !! i = Some x → remove_child x l = delete i l.
Proof. intros Hnd Hi. unfold remove_child. by rewrite (indexOf_NoDup l i x). Qed.

Lemma elem_of_delete_inv l i x : x ∈ delete i l → x ∈ l.
Proof. intros Hx. eapply elem_of_sublist; [done|apply sublist_delete]. Qed.

Lemma NoDup_delete l i : NoDup l → NoDup (delete i l).
Proof. intros Hnd. eapply sublist_NoDup; [done|apply sublist_delete]. Qed.

Lemma not_elem_of_delete_NoDup l i x : NoDup l → l !! i = Some x → x ∉ delete i l.
Proof.
  intros Hnd Hi Hin.
  apply (delete_Permutation l i x) in Hi as Hperm.
  rewrite Hperm in Hnd. by apply NoDup_cons in Hnd as [? _].
Qed.

Lemma elem_of_delete_ne l i x y :
  l !! i = Some y → x ≠ y → x ∈ l → x ∈ delete i l.
Proof.
  intros Hi Hne Hin.
  apply (delete_Permutation l i y) in Hi as Hperm.
  rewrite Hperm in Hin. by apply elem_of_cons in Hin as [?|?].
Qed.
End arrays.

(** ** Field lemmas for the lifecycle functions *)

Lemma teardowns_snoc (trace : list Effect) (e : Effect) :
  teardowns (trace ++ [e]) = teardowns trace ++ from_option (λ u, [u]) [] (teardown_of e).
Proof. unfold teardowns. rewrite omap_app. cbn. by destruct (teardown_of e). Qed.

Lemma has_resource_Some f u w m r :
  meshes w !! u = Some m → f m = Some r → has_resource f u w = true.
Proof. intros Hm Hf. unfold has_resource. rewrite Hm. cbn. by rewrite Hf. Qed.

Lemma removeTarget_targets td i w : targets (removeTarget td i w) = delete i (targets w).
Proof. unfold removeTarget. by repeat (case_match; cbn). Qed.

Lemma removeTarget_scene td i w :
  scene (removeTarget td i w) = remove_child (TargetMesh (mesh td)) (scene w).
Proof. unfold removeTarget. by repeat (case_match; cbn). Qed.

Lemma removeTarget_physicsWorld td i w :
  physicsWorld (removeTarget td i w) = remove_child (TargetBody (body td)) (physicsWorld w).
Proof. unfold removeTarget. by repeat (case_match; cbn). Qed.

Lemma removeTarget_bodies td i w : bodies (removeTarget td i w) = bodies w.
Proof. unfold removeTarget. by repeat (case_match; cbn). Qed.

Lemma removeTarget_nextUuid td i w : nextUuid (removeTarget td i w) = nextUuid w.
Proof. unfold removeTarget. by repeat (case_match; cbn). Qed.

Lemma removeTarget_maxTargets td i w : maxTargets (removeTarget td i w) = maxTargets w.
Proof. unfold removeTarget. by repeat (case_match; cbn). Qed.

Lemma removeTarget_teardowns td i w :
  teardowns (effects (removeTarget td i w)) = teardowns (effects w) ++ [mesh td].
Proof.
  unfold removeTarget.
  repeat (case_match; cbn); rewrite ?teardowns_snoc; cbn; by rewrite ?app_nil_r.
Qed.

Lemma removeTarget_meshes_ne td i w u :
  u ≠ mesh td → meshes (removeTarget td i w) !! u = meshes w !! u.
Proof.
  intros Hne. unfold removeTarget.
  repeat (case_match; cbn); by rewrite ?lookup_alter_ne.
Qed.

Lemma removeTarget_meshes_eq td i w m :
  meshes w !! mesh td = Some m →
  meshes (removeTarget td i w) !! mesh td
  = Some (mkMesh (mesh_position m) (mesh_quaternion m) (dispose (geometry m))
            (dispose (material m)) (userData_targetData m)).
Proof.
  intros Hm. unfold removeTarget, has_resource. cbn. rewrite Hm. cbn.
  destruct (geometry m) as [g|] eqn:Hg; cbn.
  - rewrite lookup_alter_eq, Hm. cbn.
    destruct (material m) as [r|] eqn:Hr; cbn.
    + rewrite !lookup_alter_eq, Hm. cbn. unfold dispose_material. cbn. by rewrite Hg, Hr.
    + rewrite !lookup_alter_eq, Hm. cbn. unfold dispose_geometry. cbn. by rewrite Hg, Hr.
  - rewrite Hm. cbn.
    destruct (material m) as [r|] eqn:Hr; cbn.
    + rewrite !lookup_alter_eq, Hm. cbn. unfold dispose_material. cbn. by rewrite Hg, Hr.
    + rewrite Hm. destruct m; cbn in *. by rewrite Hg, Hr.
Qed.

(** ** The consistency invariant *)

Lemma consistent_frame (w w' : World) :
  targets w' = targets w → meshes w' = meshes w → bodies w' = bodies w →
  scene w' = scene w → physicsWorld w' = physicsWorld w → nextUuid w' = nextUuid w →
  teardowns (effects w') = teardowns (effects w) →
  consistent w → consistent w'.
Proof.
  intros Ht Hm Hb Hs Hp Hn He [].
  constructor; unfold ids in *; rewrite ?Ht, ?Hm, ?Hb, ?Hs, ?Hp, ?Hn, ?He; done.
Qed.

Lemma consistent_ids_lookup w i td :
  targets w !! i = Some td → ids w !! i = Some (id td).
Proof. intros Hi. unfold ids. by rewrite list_lookup_fmap, Hi. Qed.

Lemma consistent_tracked_shape w td :
  consistent w → td ∈ targets w →
  mesh td = id td ∧ body td = id td ∧ (id td < nextUuid w)%nat.
Proof.
  intros Hc Hin.
  destruct (tracked_linked w Hc td Hin) as (m & Hm & Hu & _).
  destruct (store_linked w Hc _ _ Hm) as [Hlt Hshape].
  specialize (Hshape td Hu). rewrite Hshape in *. cbn in *. by rewrite Hshape.
Qed.

Lemma consistent_ids_lt w u : consistent w → u ∈ ids w → (u < nextUuid w)%nat.
Proof.
  intros Hc (td & -> & Hin)%list_elem_of_fmap.
  by apply (consistent_tracked_shape w td Hc) in Hin as (_ & _ & ?).
Qed.

Lemma NoDup_scene_children (l : list nat) :
  NoDup l → NoDup ([AmbientLight; DirectionalLight; GroundMesh] ++ (TargetMesh <$> l)).
Proof.
  intros Hl. cbn. repeat apply NoDup_cons_2.
  - rewrite !elem_of_cons, list_elem_of_fmap. by intros [?|[?|(? & ? & ?)]].
  - rewrite !elem_of_cons, list_elem_of_fmap. by intros [?|(? & ? & ?)].
  - rewrite list_elem_of_fmap. by intros (? & ? & ?).
  - apply NoDup_fmap_2; [|done]. by intros ?? [=].
Qed.

Lemma NoDup_physics_bodies (l : list nat) :
  NoDup l → NoDup (GroundBody :: (TargetBody <$> l)).
Proof.
  intros Hl. apply NoDup_cons_2.
  - rewrite list_elem_of_fmap. by intros (? & ? & ?).
  - apply NoDup_fmap_2; [|done]. by intros ?? [=].
Qed.

Lemma consistent_no_dangling w : consistent w → no_dangling w.
Proof.
  intros Hc. split.
  - intros u. rewrite (scene_tracks w Hc). cbn.
    rewrite !elem_of_cons, list_elem_of_fmap. unfold ids. split.
    + intros [?|[?|[?|(n & [= ->] & (td & -> & Hin)%list_elem_of_fmap)]]]; try done.
      exists td. split; [done|]. by apply (consistent_tracked_shape w td Hc).
    + intros (td & Hin & <-). do 3 right. exists (id td). split.
      * f_equal. by apply (consistent_tracked_shape w td Hc).
      * apply list_elem_of_fmap. eauto.
  - intros n. rewrite (physics_tracks w Hc).
    rewrite elem_of_cons, list_elem_of_fmap. unfold ids. split.
    + intros [?|(k & [= ->] & (td & -> & Hin)%list_elem_of_fmap)]; try done.
      exists td. split; [done|]. by apply (consistent_tracked_shape w td Hc).
    + intros (td & Hin & <-). right. exists (id td). split.
      * f_equal. by apply (consistent_tracked_shape w td Hc).
      * apply list_elem_of_fmap. eauto.
Qed.

Lemma removeTarget_consistent td i w :
  consistent w → targets w !! i = Some td → consistent (removeTarget td i w).
Proof.
  intros Hc Hi.
  assert (td ∈ targets w) as Hin by (by eapply list_elem_of_lookup_2).
  destruct (consistent_tracked_shape w td Hc Hin) as (Hmesh & Hbody & Hlt).
  pose proof (consistent_ids_lookup w i td Hi) as Hid.
  pose proof (ids_unique w Hc) as Hnd.
  assert (ids (removeTarget td i w) = delete i (ids w)) as Hids.
  { unfold ids. by rewrite removeTarget_targets, list_fmap_delete. }
  constructor.
  - rewrite Hids. by apply NoDup_delete.
  - intros td' Hin'. rewrite removeTarget_targets in Hin'.
    assert (id td' ≠ id td) as Hne.
    { intros Heq. apply (not_elem_of_delete_NoDup (ids w) i (id td) Hnd Hid).
      unfold ids. rewrite <- Heq, <- list_fmap_delete. apply list_elem_of_fmap. eauto. }
    apply elem_of_delete_inv in Hin'.
    destruct (consistent_tracked_shape w td' Hc Hin') as (Hmesh' & _ & _).
    rewrite removeTarget_meshes_ne, removeTarget_bodies by congruence.
    by apply (tracked_linked w Hc).
  - intros u m Hm. rewrite removeTarget_nextUuid.
    destruct (decide (u = mesh td)) as [->|Hne].
    + destruct (tracked_linked w Hc td Hin) as (m0 & Hm0 & _).
      rewrite (removeTarget_meshes_eq td i w m0 Hm0) in Hm. injection Hm as <-.
      apply (store_linked w Hc _ _ Hm0).
    + rewrite removeTarget_meshes_ne in Hm by done.
      by apply (store_linked w Hc).
  - rewrite removeTarget_scene, Hids, (scene_tracks w Hc), Hmesh.
    rewrite (remove_child_NoDup _ (3 + i) (TargetMesh (id td))).
    + cbn. by rewrite list_fmap_delete.
    + by apply NoDup_scene_children.
    + change ((TargetMesh <$> ids w) !! i = Some (TargetMesh (id td))).
      by rewrite list_lookup_fmap, Hid.
  - rewrite removeTarget_physicsWorld, Hids, (physics_tracks w Hc), Hbody.
    rewrite (remove_child_NoDup _ (1 + i) (TargetBody (id td))).
    + cbn. by rewrite list_fmap_delete.
    + by apply NoDup_physics_bodies.
    + change ((TargetBody <$> ids w) !! i = Some (TargetBody (id td))).
      by rewrite list_lookup_fmap, Hid.
  - rewrite removeTarget_teardowns. apply NoDup_app. split_and!.
    + apply (teardowns_unique w Hc).
    + intros u Hu ->%list_elem_of_singleton.
      apply (teardowns_gone w Hc) in Hu as [_ Hu]. apply Hu.
      rewrite Hmesh. by eapply list_elem_of_lookup_2.
    + apply NoDup_singleton.
  - intros u. rewrite removeTarget_teardowns, removeTarget_nextUuid, Hids.
    intros [Hu| ->%list_elem_of_singleton]%elem_of_app.
    + apply (teardowns_gone w Hc) in Hu as [? Hu]. split; [done|].
      intros ?%elem_of_delete_inv. done.
    + rewrite Hmesh. split; [done|]. by apply not_elem_of_delete_NoDup.
Qed.

Lemma removeTarget_torn_down td i w :
  consistent w → targets w !! i = Some td → torn_down td (removeTarget td i w).
Proof.
  intros Hc Hi.
  assert (td ∈ targets w) as Hin by (by eapply list_elem_of_lookup_2).
  destruct (consistent_tracked_shape w td Hc Hin) as (Hmesh & Hbody & Hlt).
  pose proof (consistent_ids_lookup w i td Hi) as Hid.
  pose proof (ids_unique w Hc) as Hnd.
  pose proof (removeTarget_consistent td i w Hc Hi) as Hc'.
  assert (id td ∉ ids (removeTarget td i w)) as Hgone.
  { unfold ids. rewrite removeTarget_targets, list_fmap_delete.
    by apply not_elem_of_delete_NoDup. }
  destruct (tracked_linked w Hc td Hin) as (m & Hm & _ & Hg & Hr & _).
  unfold torn_down. split_and!.
  - intros Hin'. apply Hgone. apply list_elem_of_fmap. eauto.
  - rewrite (scene_tracks _ Hc'), Hmesh. cbn.
    rewrite !elem_of_cons, list_elem_of_fmap.
    by intros [?|[?|[?|(y & [= <-] & Hy)]]].
  - rewrite (physics_tracks _ Hc'), Hbody.
    rewrite elem_of_cons, list_elem_of_fmap.
    by intros [?|(y & [= <-] & Hy)].
  - rewrite (removeTarget_meshes_eq td i w m Hm). cbn. by rewrite Hg.
  - rewrite (removeTarget_meshes_eq td i w m Hm). cbn. by rewrite Hr.
Qed.

Lemma spawnTarget_consistent rnd w : consistent w → consistent (spawnTarget rnd w).
Proof.
  intros Hc.
  set (n := nextUuid w).
  set (td := mkTargetData n n (randomTypeKey (rnd 0%nat)) n).
  assert (ids (spawnTarget rnd w) = ids w ++ [n]) as Hids.
  { unfold ids, spawnTarget. cbn. by rewrite fmap_app. }
  assert (n ∉ ids w) as Hfresh.
  { intros Hin%(consistent_ids_lt w n Hc). unfold n in Hin. lia. }
  assert (teardowns (effects (spawnTarget rnd w)) = teardowns (effects w)) as Htd.
  { unfold spawnTarget. cbn. rewrite !teardowns_snoc. cbn. by rewrite !app_nil_r. }
  constructor.
  - rewrite Hids. apply NoDup_app. split_and!.
    + apply (ids_unique w Hc).
    + by intros u Hu ->%list_elem_of_singleton.
    + apply NoDup_singleton.
  - intros td' Hin. change (targets (spawnTarget rnd w)) with (targets w ++ [td]) in Hin.
    change (meshes (spawnTarget rnd w))
      with (<[n := mkMesh (spawn_position rnd) identity_quaternion (Some Live) (Some Live) (Some td)]>
              (meshes w)).
    change (bodies (spawnTarget rnd w) !! body td')
      with (<[n := mkBody (spawn_position rnd) identity_quaternion
                     (mkVec3 ((draw_val (rnd 4%nat) - (1 # 2)) * 2) (draw_val (rnd 5%nat) * 3)
                        ((draw_val (rnd 6%nat) - (1 # 2)) * 2))%Q
                     (mkVec3 ((draw_val (rnd 7%nat) - (1 # 2)) * 3)
                        ((draw_val (rnd 8%nat) - (1 # 2)) * 3)
                        ((draw_val (rnd 9%nat) - (1 # 2)) * 3))%Q]> (bodies w) !! body td').
    apply elem_of_app in Hin as [Hin| ->%list_elem_of_singleton].
    + destruct (consistent_tracked_shape w td' Hc Hin) as (Hmesh & Hbody & Hlt).
      fold n in Hlt.
      rewrite !lookup_insert_ne by lia.
      by apply (tracked_linked w Hc).
    + cbn. rewrite !lookup_insert_eq. eauto 10.
  - intros u m.
    change (meshes (spawnTarget rnd w))
      with (<[n := mkMesh (spawn_position rnd) identity_quaternion (Some Live) (Some Live) (Some td)]>
              (meshes w)).
    change (nextUuid (spawnTarget rnd w)) with (S n).
    destruct (decide (n = u)) as [<-|Hne].
    + rewrite lookup_insert_eq. intros [= <-]. split; [lia|].
      cbn. by intros td' [= <-].
    + rewrite lookup_insert_ne by done. intros Hm.
      destruct (store_linked w Hc u m Hm) as [Hlt Hshape]. fold n in Hlt.
      split; [lia|done].
  - rewrite Hids, fmap_app.
    change (scene (spawnTarget rnd w)) with (scene w ++ [TargetMesh n]).
    by rewrite (scene_tracks w Hc), <- app_assoc.
  - rewrite Hids, fmap_app.
    change (physicsWorld (spawnTarget rnd w)) with (physicsWorld w ++ [TargetBody n]).
    by rewrite (physics_tracks w Hc).
  - rewrite Htd. apply (teardowns_unique w Hc).
  - intros u. rewrite Htd, Hids. change (nextUuid (spawnTarget rnd w)) with (S n).
    intros Hu. destruct (teardowns_gone w Hc u Hu) as [Hlt Hout]. fold n in Hlt.
    split; [lia|].
    intros [?| ->%list_elem_of_singleton]%elem_of_app; [done|lia].
Qed.

Lemma sync_consistent b u w :
  consistent w → consistent (set_meshes (alter (sync_mesh b) u (meshes w)) w).
Proof.
  intros Hc. destruct Hc as [H1 H2 H3 H4 H5 H6 H7].
  constructor; try done.
  - intros td Hin. cbn in *.
    destruct (H2 td Hin) as (m & Hm & Hu & Hg & Hr & Hb).
    destruct (decide (u = mesh td)) as [->|Hne].
    + exists (sync_mesh b m). rewrite lookup_alter_eq, Hm. eauto.
    + exists m. rewrite lookup_alter_ne by done. eauto.
  - intros u' m'. cbn.
    destruct (decide (u = u')) as [->|Hne].
    + rewrite lookup_alter_eq. intros (m & Hm & ->)%fmap_Some.
      apply (H3 u' m Hm).
    + rewrite lookup_alter_ne by done. apply H3.
Qed.

Lemma syncCallback_consistent td k w :
  consistent w → targets w !! k = Some td → consistent (syncCallback td k w).
Proof.
  intros Hc Hk. unfold syncCallback.
  destruct (bodies w !! body td) as [b|]; [|done].
  pose proof (sync_consistent b (mesh td) w Hc) as Hc1.
  case_match; [|done].
  apply removeTarget_consistent; [|done].
  eapply consistent_frame; [..|exact Hc1]; try reflexivity.
  cbn. rewrite teardowns_snoc. cbn. by rewrite app_nil_r.
Qed.

Lemma forEach_from_consistent remaining k w :
  consistent w → consistent (forEach_from syncCallback remaining k w).
Proof.
  revert k w. induction remaining as [|remaining IH]; intros k w Hc; cbn; [done|].
  apply IH. destruct (targets w !! k) as [td|] eqn:Hk; [|done].
  by apply syncCallback_consistent.
Qed.

Lemma physicsWorld_step_consistent integrate w :
  consistent w → consistent (physicsWorld_step integrate w).
Proof.
  intros [H1 H2 H3 H4 H5 H6 H7]. constructor; try done.
  intros td Hin. destruct (H2 td Hin) as (m & Hm & Hu & Hg & Hr & [b Hb]).
  exists m. split_and!; try done.
  cbn. rewrite map_lookup_imap, Hb. cbn. eauto.
Qed.

Lemma updateCombo_consistent w : consistent w → consistent (updateCombo w).
Proof. by apply consistent_frame. Qed.

Lemma processHit_consistent td p w : consistent w → consistent (processHit td p w).
Proof.
  apply consistent_frame; try reflexivity.
  cbn. rewrite !teardowns_snoc. cbn. by rewrite !app_nil_r.
Qed.

Lemma processMiss_consistent w : consistent w → consistent (processMiss w).
Proof.
  apply consistent_frame; unfold processMiss;
    destruct (0 <? consecutiveHits w); try reflexivity;
    cbn; rewrite !teardowns_snoc; cbn; by rewrite !app_nil_r.
Qed.

Lemma onLoad_consistent w : consistent w → consistent (onLoad w).
Proof.
  apply consistent_frame; try reflexivity.
  cbn. rewrite !teardowns_snoc. cbn. by rewrite !app_nil_r.
Qed.

Lemma set_timeSinceLastSpawn_consistent v w :
  consistent w → consistent (set_timeSinceLastSpawn v w).
Proof. intros []. by constructor. Qed.

Lemma set_targetSpawnInterval_consistent v w :
  consistent w → consistent (set_targetSpawnInterval v w).
Proof. intros []. by constructor. Qed.

Lemma update_consistent deltaTime integrate rnd w :
  consistent w → consistent (update deltaTime integrate rnd w).
Proof.
  intros Hc. unfold update. destruct (assetsLoaded w); [|done]. cbn [negb].
  apply forEach_from_consistent.
  apply (physicsWorld_step_consistent integrate) in Hc.
  set (w1 := physicsWorld_step integrate w) in *.
  apply (set_timeSinceLastSpawn_consistent (timeSinceLastSpawn w1 + deltaTime)%Q) in Hc.
  case_match; [|done].
  apply set_targetSpawnInterval_consistent, set_timeSinceLastSpawn_consistent.
  by apply spawnTarget_consistent.
Qed.

Lemma findIndex_Some {A} (P : A → Prop) `{∀ x, Decision (P x)} (l : list A) i :
  findIndex P l = Some i → ∃ x, l !! i = Some x ∧ P x.
Proof.
  unfold findIndex. intros ([j x] & Hfind & [= ->])%fmap_Some.
  apply list_find_Some in Hfind as (? & ? & _). eauto.
Qed.

Lemma findIndex_None {A} (P : A → Prop) `{∀ x, Decision (P x)} (l : list A) :
  findIndex P l = None → ∀ x, x ∈ l → ¬ P x.
Proof.
  unfold findIndex. intros Hnone%fmap_None.
  apply list_find_None in Hnone. by apply Forall_forall.
Qed.

(** In a consistent world the target data a mesh carries and the tracked
    entry with the same id are one and the same. *)
Lemma consistent_userData_tracked w o td t :
  consistent w → userData_of o w = Some td → t ∈ targets w → id t = id td → t = td.
Proof.
  intros Hc Hu Hin Heq.
  destruct o as [| | |u]; try done. cbn in Hu.
  apply bind_Some in Hu as (m & Hm & Hu).
  destruct (store_linked w Hc u m Hm) as [_ Hshape].
  specialize (Hshape td Hu).
  destruct (tracked_linked w Hc t Hin) as (m' & Hm' & Hu' & _).
  destruct (consistent_tracked_shape w t Hc Hin) as (Hmesh & _ & _).
  assert (mesh t = u) as Hmu.
  { rewrite Hmesh, Heq, Hshape. done. }
  rewrite Hmu, Hm in Hm'. injection Hm' as <-. congruence.
Qed.

Lemma shoot_consistent intersects w : consistent w → consistent (shoot intersects w).
Proof.
  intros Hc. unfold shoot. destruct (assetsLoaded w); [|done]. cbn [negb].
  destruct intersects as [|i0 rest]; [by apply processMiss_consistent|].
  destruct (userData_of (object i0) w) as [td|] eqn:Hu.
  - pose proof (processHit_consistent td (point i0) w Hc) as Hc1.
    destruct (findIndex _ _) as [i|] eqn:Hfind.
    + apply findIndex_Some in Hfind as (t & Hi & Hid).
      apply removeTarget_consistent; [done|].
      rewrite Hi. f_equal.
      eapply (consistent_userData_tracked w); [done..| |done].
      by eapply list_elem_of_lookup_2.
    + eapply consistent_frame; [..|exact Hc1]; try reflexivity.
      cbn. rewrite !teardowns_snoc. cbn. by rewrite !app_nil_r.
  - apply processMiss_consistent.
    eapply consistent_frame; [..|exact Hc]; try reflexivity.
    cbn. rewrite !teardowns_snoc. cbn. by rewrite !app_nil_r.
Qed.

Lemma init_consistent : consistent init.
Proof.
  constructor; cbn; try done; try apply NoDup_nil_2.
  - by intros td ?%elem_of_nil.
  - by intros u ?%elem_of_nil.
Qed.

Lemma step_consistent w e : consistent w → consistent (step w e).
Proof.
  destruct e; cbn [step];
    auto using onLoad_consistent, update_consistent, shoot_consistent.
Qed.

Lemma run_consistent events w : consistent w → consistent (run events w).
Proof.
  revert w. induction events as [|e events IH]; intros w Hc; [done|].
  apply IH, step_consistent, Hc.
Qed.

(** ** Population cap *)

Lemma length_delete_le {A} (l : list A) (i : nat) : (length (delete i l) ≤ length l)%nat.
Proof. apply sublist_length, sublist_delete. Qed.

Lemma syncCallback_targets td k w :
  targets (syncCallback td k w) = targets w
  ∨ targets (syncCallback td k w) = delete k (targets w).
Proof.
  unfold syncCallback. destruct (bodies w !! body td) as [b|]; [|by left].
  case_match; [|by left]. right. by rewrite removeTarget_targets.
Qed.

Lemma syncCallback_maxTargets td k w : maxTargets (syncCallback td k w) = maxTargets w.
Proof.
  unfold syncCallback. destruct (bodies w !! body td) as [b|]; [|done].
  case_match; [|done]. by rewrite removeTarget_maxTargets.
Qed.

Lemma forEach_from_within_cap remaining k w :
  within_cap w → within_cap (forEach_from syncCallback remaining k w).
Proof.
  revert k w. induction remaining as [|remaining IH]; intros k w Hcap; cbn; [done|].
  apply IH. destruct (targets w !! k) as [td|]; [|done].
  unfold within_cap in *. rewrite syncCallback_maxTargets.
  destruct (syncCallback_targets td k w) as [-> | ->]; [done|].
  pose proof (length_delete_le (targets w) k). lia.
Qed.

Lemma update_within_cap deltaTime integrate rnd w :
  within_cap w → within_cap (update deltaTime integrate rnd w).
Proof.
  intros Hcap. unfold update. destruct (assetsLoaded w); [|done]. cbn [negb].
  apply forEach_from_within_cap.
  case_match eqn:Hcond; [|done].
  apply andb_prop in Hcond as [_ Hlt]. apply Z.ltb_lt in Hlt.
  unfold within_cap in *. cbn in *. rewrite length_app. cbn. lia.
Qed.

Lemma shoot_within_cap intersects w : within_cap w → within_cap (shoot intersects w).
Proof.
  intros Hcap. unfold shoot. destruct (assetsLoaded w); [|done]. cbn [negb].
  destruct intersects as [|i0 rest].
  { unfold processMiss, within_cap in *. by destruct (0 <? consecutiveHits w). }
  destruct (userData_of (object i0) w) as [td|].
  - destruct (findIndex _ _) as [i|]; [|done].
    unfold within_cap in *.
    rewrite removeTarget_targets, removeTarget_maxTargets.
    change (targets (processHit td (point i0) w)) with (targets w).
    change (maxTargets (processHit td (point i0) w)) with (maxTargets w).
    pose proof (length_delete_le (targets w) i). lia.
  - unfold processMiss, within_cap in *. cbn.
    by destruct (0 <? consecutiveHits w).
Qed.

Lemma step_within_cap w e : within_cap w → within_cap (step w e).
Proof.
  destruct e; cbn [step]; auto using update_within_cap, shoot_within_cap.
Qed.

(** C6. Once the number of tracked targets is within [maxTargets] it stays
    so after every frame (spawn and prune included), every shot and every
    load notification, hence between any two operations of a session. *)
Theorem targets_never_exceed_maxTargets (events : list Event) (w : World) :
  within_cap w → within_cap (run events w).
Proof.
  revert w. induction events as [|e events IH]; intros w Hcap; [done|].
  apply IH, step_within_cap, Hcap.
Qed.

Lemma targets_never_exceed_maxTargets_witness :
  within_cap init
  ∧ within_cap (run [AssetsReady; Frame 2 rest_physics (λ _, draw_8_10);
                     Frame 2 drop_physics (λ _, draw_0);
                     PointerDown [mkIntersection (TargetMesh 1) origin]] init).
Proof.
  assert (within_cap init) as H0 by (unfold within_cap; simpl; lia).
  split; [exact H0|].
  apply (targets_never_exceed_maxTargets _ init). exact H0.
Defined.

(** ** Teardown *)

(** C8. When [removeTarget] is called, as both of its callers do, with a
    tracked target and the index it is stored at, the target is afterwards
    absent from the tracking array, the scene and the physics world, its
    geometry and material are disposed, and what stays registered is exactly
    what stays tracked. *)
Theorem removeTarget_leaves_no_reference (targetData : TargetData) (index : nat) (w : World) :
  consistent w → targets w !! index = Some targetData →
  torn_down targetData (removeTarget targetData index w)
  ∧ no_dangling (removeTarget targetData index w)
  ∧ consistent (removeTarget targetData index w).
Proof.
  intros Hc Hi. split_and!.
  - by apply removeTarget_torn_down.
  - by apply consistent_no_dangling, removeTarget_consistent.
  - by apply removeTarget_consistent.
Qed.

Lemma removeTarget_leaves_no_reference_witness :
  torn_down (mkTargetData 0 0 PENALTY 0) (removeTarget (mkTargetData 0 0 PENALTY 0) 0 two_targets).
Proof.
  apply (removeTarget_leaves_no_reference (mkTargetData 0 0 PENALTY 0) 0 two_targets).
  - apply run_consistent, init_consistent.
  - vm_compute. reflexivity.
Defined.

(** The two call sites meet the calling convention. *)
Lemma shoot_call_site w o td i :
  consistent w → userData_of o w = Some td →
  findIndex (λ t, id t = id td) (targets w) = Some i → targets w !! i = Some td.
Proof.
  intros Hc Hu (t & Hi & Hid)%findIndex_Some.
  rewrite Hi. f_equal.
  eapply (consistent_userData_tracked w); [done..| |done].
  by eapply list_elem_of_lookup_2.
Qed.

(** C9. Over a whole session no target is torn down twice, and a target
    that has been torn down is no longer tracked, so neither the prune pass
    nor a shot can reach it again. *)
Theorem teardown_at_most_once (events : list Event) :
  NoDup (teardowns (effects (run events init)))
  ∧ ∀ u, u ∈ teardowns (effects (run events init)) → u ∉ ids (run events init).
Proof.
  pose proof (run_consistent events init init_consistent) as Hc. split.
  - apply (teardowns_unique _ Hc).
  - intros u Hu. by apply (teardowns_gone _ Hc).
Qed.

(** ** Effects of a shot *)

Lemma emit_effects e w : effects (emit e w) = effects w ++ [e].
Proof. reflexivity. Qed.

Lemma count_of_app f (l1 l2 : list Effect) :
  count_of f (l1 ++ l2) = (count_of f l1 + count_of f l2)%nat.
Proof. induction l1 as [|e l1 IH]; cbn; [done|]. rewrite IH. lia. Qed.

Lemma teardowns_app (l1 l2 : list Effect) :
  teardowns (l1 ++ l2) = teardowns l1 ++ teardowns l2.
Proof. apply omap_app. Qed.

Lemma processHit_effects td p w :
  ∃ h new, effects (processHit td p w) = effects w ++ h :: new
    ∧ is_hit_record h = true
    ∧ count_of is_hit_record new = 0%nat
    ∧ count_of is_miss_record (h :: new) = 0%nat
    ∧ count_of is_warning (h :: new) = 0%nat
    ∧ teardowns (h :: new) = [].
Proof.
  eexists _, _. split.
  { unfold processHit. cbn. rewrite <- app_assoc. reflexivity. }
  cbn. by destruct (type td).
Qed.

Lemma processMiss_effects w :
  ∃ new, effects (processMiss w) = effects w ++ new
    ∧ count_of is_hit_record new = 0%nat
    ∧ count_of is_miss_record new = 1%nat
    ∧ count_of is_warning new = 0%nat
    ∧ teardowns new = [].
Proof.
  unfold processMiss. destruct (0 <? consecutiveHits w); cbn.
  - eexists. split; [rewrite <- app_assoc; reflexivity|]. done.
  - eexists. split; [reflexivity|]. done.
Qed.

Lemma processMiss_targets w : targets (processMiss w) = targets w.
Proof. unfold processMiss. by destruct (0 <? consecutiveHits w). Qed.

Lemma removeTarget_effects td i w :
  ∃ new, effects (removeTarget td i w) = effects w ++ new
    ∧ count_of is_hit_record new = 0%nat
    ∧ count_of is_miss_record new = 0%nat
    ∧ count_of is_warning new = 0%nat
    ∧ teardowns new = [mesh td].
Proof.
  unfold removeTarget.
  repeat (case_match; cbn); eexists;
    (split; [rewrite <- ?app_assoc; cbn; reflexivity|done]).
Qed.

(** C7. A shot taken once the assets are ready runs the hit path or the
    miss path and never both: either one hit is recorded first, no miss, and
    at most one target is then torn down; or one miss is recorded, no hit,
    and nothing is torn down.  When the nearest intersected object carries
    no target data the shot is a miss, reported by a warning. *)
Theorem shoot_hit_xor_miss (intersects : list Intersection) (w : World) :
  assetsLoaded w = true →
  ∃ new, effects (shoot intersects w) = effects w ++ new
    ∧ ((∃ h rest, new = h :: rest ∧ is_hit_record h = true
          ∧ count_of is_hit_record new = 1%nat
          ∧ count_of is_miss_record new = 0%nat
          ∧ (length (teardowns new) ≤ 1)%nat
          ∧ (length (targets w) ≤ S (length (targets (shoot intersects w))))%nat)
       ∨ (count_of is_hit_record new = 0%nat
          ∧ count_of is_miss_record new = 1%nat
          ∧ teardowns new = []
          ∧ targets (shoot intersects w) = targets w))
    ∧ (∀ i0 rest, intersects = i0 :: rest → userData_of (object i0) w = None →
         count_of is_hit_record new = 0%nat
         ∧ count_of is_miss_record new = 1%nat
         ∧ console_warn HitMeshNoTargetData ∈ new
         ∧ teardowns new = []
         ∧ targets (shoot intersects w) = targets w).
Proof.
  intros Hready. unfold shoot. rewrite Hready. cbn [negb].
  destruct intersects as [|i0 rest].
  - destruct (processMiss_effects w) as (new & He & Hh & Hm & _ & Ht).
    exists new. split_and!; [done| |done].
    right. by rewrite processMiss_targets.
  - destruct (userData_of (object i0) w) as [td|] eqn:Hu.
    + destruct (processHit_effects td (point i0) w) as (h & new & He & Hh & Hh0 & Hm & _ & Ht).
      destruct (findIndex _ _) as [i|] eqn:Hfind.
      * destruct (removeTarget_effects td i (processHit td (point i0) w))
          as (new' & He' & Hh' & Hm' & _ & Ht').
        exists (h :: new ++ new'). split_and!.
        -- rewrite He', He, <- app_assoc. done.
        -- left. exists h, (new ++ new'). split_and!; try done.
           ++ cbn. rewrite Hh, count_of_app, Hh0, Hh'. done.
           ++ change (h :: new ++ new') with ((h :: new) ++ new').
              rewrite count_of_app, Hm', Nat.add_0_r. exact Hm.
           ++ change (h :: new ++ new') with ((h :: new) ++ new').
              rewrite teardowns_app, Ht, Ht'. cbn. lia.
           ++ rewrite removeTarget_targets.
              change (targets (processHit td (point i0) w)) with (targets w).
              destruct (targets w !! i) as [t|] eqn:Hi.
              ** rewrite length_delete by eauto.
                 apply lookup_lt_Some in Hi. lia.
              ** apply findIndex_Some in Hfind as (t & Hi' & _).
                 change (targets (processHit td (point i0) w)) with (targets w) in Hi'.
                 congruence.
        -- intros ?? [= <- <-] Hnone. congruence.
      * exists (h :: new ++ [console_warn HitTargetNotFound]). split_and!.
        -- rewrite emit_effects, He, <- app_assoc. done.
        -- left. exists h, (new ++ [console_warn HitTargetNotFound]). split_and!; try done.
           ++ cbn. rewrite Hh, count_of_app, Hh0. done.
           ++ change (h :: new ++ [console_warn HitTargetNotFound])
                with ((h :: new) ++ [console_warn HitTargetNotFound]).
              rewrite count_of_app, Nat.add_0_r. exact Hm.
           ++ change (h :: new ++ [console_warn HitTargetNotFound])
                with ((h :: new) ++ [console_warn HitTargetNotFound]).
              rewrite teardowns_app, Ht. cbn. lia.
           ++ cbn. lia.
        -- intros ?? [= <- <-] Hnone. congruence.
    + destruct (processMiss_effects (emit (console_warn HitMeshNoTargetData) w))
        as (new & He & Hh & Hm & _ & Ht).
      exists (console_warn HitMeshNoTargetData :: new).
      assert (targets (processMiss (emit (console_warn HitMeshNoTargetData) w)) = targets w)
        as Htargets by (by rewrite processMiss_targets).
      split_and!.
      * rewrite He, emit_effects. by rewrite <- app_assoc.
      * right. split_and!; [exact Hh|exact Hm|exact Ht|exact Htargets].
      * intros ?? _ _. split_and!; [exact Hh|exact Hm| |exact Ht|exact Htargets].
        apply elem_of_cons. by left.
Qed.

Lemma shoot_hit_xor_miss_witness :
  ∃ new, effects (shoot [mkIntersection GroundMesh origin] two_targets)
         = effects two_targets ++ new
    ∧ count_of is_miss_record new = 1%nat.
Proof.
  destruct (shoot_hit_xor_miss [mkIntersection GroundMesh origin] two_targets)
    as (new & He & _ & Hmiss).
  - vm_compute. reflexivity.
  - exists new. split; [exact He|].
    apply (Hmiss (mkIntersection GroundMesh origin) []); reflexivity.
Defined.

(** ** Hits on tracked meshes *)

Lemma shoot_tracked_hit (w : World) (i0 : Intersection) (rest : list Intersection) :
  consistent w → assetsLoaded w = true →
  object i0 ∈ (λ t, TargetMesh (mesh t)) <$> targets w →
  ∃ td index new,
    targets w !! index = Some td
    ∧ object i0 = TargetMesh (mesh td)
    ∧ userData_of (object i0) w = Some td
    ∧ effects (shoot (i0 :: rest) w) = effects w ++ new
    ∧ count_of is_warning new = 0%nat
    ∧ count_of is_hit_record new = 1%nat
    ∧ teardowns new = [id td]
    ∧ targets (shoot (i0 :: rest) w) = delete index (targets w)
    ∧ (td ∉ targets (shoot (i0 :: rest) w))
    ∧ S (length (targets (shoot (i0 :: rest) w))) = length (targets w).
Proof.
  intros Hc Hready (td & Hobj & Hin)%list_elem_of_fmap.
  destruct (tracked_linked w Hc td Hin) as (m & Hm & Hu & _).
  destruct (consistent_tracked_shape w td Hc Hin) as (Hmesh & _ & _).
  assert (userData_of (object i0) w = Some td) as Hud.
  { rewrite Hobj. cbn. by rewrite Hm. }
  destruct (findIndex (λ t, id t = id td) (targets w)) as [index|] eqn:Hfind; last first.
  { by destruct (findIndex_None _ _ Hfind td Hin). }
  pose proof (shoot_call_site w (object i0) td index Hc Hud Hfind) as Hidx.
  assert (shoot (i0 :: rest) w = removeTarget td index (processHit td (point i0) w)) as ->.
  { unfold shoot. rewrite Hready, Hud. cbn [negb].
    change (targets (processHit td (point i0) w)) with (targets w).
    by rewrite Hfind. }
  destruct (processHit_effects td (point i0) w) as (h & new & He & Hh & Hh0 & _ & Hw & Ht).
  destruct (removeTarget_effects td index (processHit td (point i0) w))
    as (new' & He' & Hh' & _ & Hw' & Ht').
  pose proof (processHit_consistent td (point i0) w Hc) as Hc1.
  destruct (removeTarget_torn_down td index _ Hc1 Hidx) as (Hgone & _).
  exists td, index, ((h :: new) ++ new'). split_and!; try done.
  - rewrite He', He, <- app_assoc. done.
  - by rewrite count_of_app, Hw, Hw'.
  - rewrite count_of_app, Hh'. cbn. rewrite Hh, Hh0. done.
  - by rewrite teardowns_app, Ht, Ht', Hmesh.
  - by rewrite removeTarget_targets.
  - rewrite removeTarget_targets.
    change (targets (processHit td (point i0) w)) with (targets w).
    rewrite length_delete by eauto. apply lookup_lt_Some in Hidx. lia.
Qed.

(** C10. In every state a session can reach, a shot whose nearest
    intersection is the mesh of a tracked target (the ray caster is only
    given those meshes) finds the target data on the mesh and the target in
    the tracking array: no warning is issued, one hit is recorded and exactly
    that one target is torn down. *)
Theorem tracked_intersection_always_retires
    (events : list Event) (i0 : Intersection) (rest : list Intersection) :
  assetsLoaded (run events init) = true →
  object i0 ∈ (λ t, TargetMesh (mesh t)) <$> targets (run events init) →
  ∃ td index new,
    targets (run events init) !! index = Some td
    ∧ object i0 = TargetMesh (mesh td)
    ∧ userData_of (object i0) (run events init) = Some td
    ∧ effects (shoot (i0 :: rest) (run events init)) = effects (run events init) ++ new
    ∧ count_of is_warning new = 0%nat
    ∧ count_of is_hit_record new = 1%nat
    ∧ teardowns new = [id td]
    ∧ targets (shoot (i0 :: rest) (run events init)) = delete index (targets (run events init))
    ∧ (td ∉ targets (shoot (i0 :: rest) (run events init)))
    ∧ S (length (targets (shoot (i0 :: rest) (run events init))))
      = length (targets (run events init)).
Proof.
  intros Hready Hobj.
  apply shoot_tracked_hit; [|done..].
  apply run_consistent, init_consistent.
Qed.

Lemma tracked_intersection_always_retires_witness :
  ∃ td index new,
    targets two_targets !! index = Some td
    ∧ object (mkIntersection (TargetMesh 1) origin) = TargetMesh (mesh td)
    ∧ userData_of (object (mkIntersection (TargetMesh 1) origin)) two_targets = Some td
    ∧ effects (shoot [mkIntersection (TargetMesh 1) origin] two_targets)
      = effects two_targets ++ new
    ∧ count_of is_warning new = 0%nat
    ∧ count_of is_hit_record new = 1%nat
    ∧ teardowns new = [id td]
    ∧ targets (shoot [mkIntersection (TargetMesh 1) origin] two_targets)
      = delete index (targets two_targets)
    ∧ (td ∉ targets (shoot [mkIntersection (TargetMesh 1) origin] two_targets))
    ∧ S (length (targets (shoot [mkIntersection (TargetMesh 1) origin] two_targets)))
      = length (targets two_targets).
Proof.
  apply (tracked_intersection_always_retires
           [AssetsReady; Frame 2 rest_physics (λ _, draw_8_10); Frame 2 rest_physics (λ _, draw_0)]
           (mkIntersection (TargetMesh 1) origin) []).
  - vm_compute. reflexivity.
  - vm_compute. apply list_elem_of_further, list_elem_of_here.
Defined.

(** ** The prune pass *)

(** C5. With two tracked targets that have both fallen below the floor,
    one pass of [update] tears down the first and never visits the second:
    the second stays tracked and registered, its mesh keeps the position it
    had before the pass although its body is below -10, and a single
    out-of-bounds teardown is reported. *)
Theorem prune_pass_skips_target_after_removed_one :
  ids two_targets = [0; 1]%nat
  ∧ ids (update 0 drop_physics (λ _, draw_0) two_targets) = [1]%nat
  ∧ teardowns (effects (update 0 drop_physics (λ _, draw_0) two_targets)) = [0]%nat
  ∧ ∃ m b,
      meshes (update 0 drop_physics (λ _, draw_0) two_targets) !! 1%nat = Some m
      ∧ bodies (update 0 drop_physics (λ _, draw_0) two_targets) !! 1%nat = Some b
      ∧ meshes two_targets !! 1%nat = Some m
      ∧ Qltb (vy (body_position b)) (-10) = true
      ∧ mesh_position m ≠ body_position b.
Proof.
  split_and!; [by vm_compute..|].
  eexists _, _. split_and!; [by vm_compute..|].
  vm_compute. congruence.
Qed.

(** ** Scenarios *)

(** One hit on a STANDARD target in a fresh session. *)
Example first_hit_scores_ten :
  score (play [Hit (a_target STANDARD) origin] (onLoad init)) = 10
  ∧ comboMultiplier (play [Hit (a_target STANDARD) origin] (onLoad init)) = 1%Q.
Proof. split; reflexivity. Qed.

(** The fifth consecutive STANDARD hit earns 15; after a miss the next hit
    earns 10 again. *)
Example fifth_hit_then_miss :
  pointsEarned (a_target STANDARD) origin four_hits = 15
  ∧ consecutiveHits (play [Hit (a_target STANDARD) origin; Miss] four_hits) = 0
  ∧ pointsEarned (a_target STANDARD) origin
      (play [Hit (a_target STANDARD) origin; Miss] four_hits) = 10.
Proof. split_and!; reflexivity. Qed.

(** A PENALTY target hit as the tenth of a streak costs 30 points. *)
Example penalty_at_ten :
  pointsEarned (a_target PENALTY) origin
    (play (replicate 9 (Hit (a_target STANDARD) origin)) (onLoad init)) = -30.
Proof. reflexivity. Qed.

(** Spawning a target and pruning it in the next pass leaves the tracking
    array as long as it was before the spawn. *)
Example spawn_then_prune :
  length (targets (run [Frame 2 rest_physics (λ _, draw_0);
                        Frame 0 drop_physics (λ _, draw_0)] (onLoad init)))
  = length (targets (onLoad init)).
Proof. by vm_compute. Qed.

(** * Further properties *)

(** ** What the prune loop leaves alone *)

Lemma loop_frame_refl w : loop_frame w w.
Proof. by constructor. Qed.

Lemma loop_frame_trans w1 w2 w3 : loop_frame w1 w2 → loop_frame w2 w3 → loop_frame w1 w3.
Proof. intros [] []. constructor; congruence. Qed.

Lemma removeTarget_loop_frame td i w : loop_frame w (removeTarget td i w).
Proof. unfold removeTarget. by repeat (case_match; cbn). Qed.

Lemma syncCallback_loop_frame td k w : loop_frame w (syncCallback td k w).
Proof.
  unfold syncCallback. destruct (bodies w !! body td) as [b|]; [|apply loop_frame_refl].
  case_match; [|by constructor].
  eapply loop_frame_trans; [|apply removeTarget_loop_frame]. by constructor.
Qed.

Lemma forEach_from_loop_frame remaining k w :
  loop_frame w (forEach_from syncCallback remaining k w).
Proof.
  revert k w. induction remaining as [|remaining IH]; intros k w; cbn.
  { apply loop_frame_refl. }
  eapply loop_frame_trans; [|apply IH].
  destruct (targets w !! k); [apply syncCallback_loop_frame|apply loop_frame_refl].
Qed.

(** ** Gating on asset readiness *)

Lemma step_not_ready w e :
  assetsLoaded w = false → is_AssetsReady e = false → step w e = w.
Proof.
  intros Hw He. destruct e; [done| |]; cbn [step].
  - unfold update. by rewrite Hw.
  - unfold shoot. by rewrite Hw.
Qed.

(** X1. As long as the load callback has not fired, frames and pointer
    events leave the whole state as it is: nothing spawns, nothing is
    scored, nothing is logged. *)
Theorem nothing_happens_before_assets_load (events : list Event) (w : World) :
  assetsLoaded w = false →
  forallb (λ e, negb (is_AssetsReady e)) events = true →
  run events w = w.
Proof.
  intros Hw. induction events as [|e events IH]; [done|].
  cbn [forallb]. intros [He Hes]%andb_prop.
  change (run (e :: events) w) with (run events (step w e)).
  rewrite step_not_ready; [auto|done|by destruct (is_AssetsReady e)].
Qed.

Lemma nothing_happens_before_assets_load_witness :
  run [Frame 2 drop_physics (λ _, draw_0);
       PointerDown [mkIntersection (TargetMesh 0) origin];
       Frame 2 rest_physics (λ _, draw_8_10)] init = init.
Proof.
  apply (nothing_happens_before_assets_load
           [Frame 2 drop_physics (λ _, draw_0);
            PointerDown [mkIntersection (TargetMesh 0) origin];
            Frame 2 rest_physics (λ _, draw_8_10)] init); reflexivity.
Defined.

(** ** Scoring state across a session *)

Lemma update_scoring deltaTime integrate rnd w :
  scoring (update deltaTime integrate rnd w) = scoring w.
Proof.
  unfold update. destruct (assetsLoaded w); [|done]. cbn [negb].
  unfold targets_forEach.
  rewrite (frame_scoring _ _ (forEach_from_loop_frame _ _ _)).
  by case_match.
Qed.

Lemma processMiss_scoring w : scoring (processMiss w) = (score w, 0, 1%Q).
Proof. unfold processMiss. by destruct (0 <? consecutiveHits w). Qed.

Lemma processHit_scoring td p w :
  scoring (processHit td p w)
  = (score w + Math_round (inject_Z (points (targetTypes (type td)))
                           * table_multiplier (consecutiveHits w + 1)),
     consecutiveHits w + 1,
     table_multiplier (consecutiveHits w + 1)).
Proof.
  unfold scoring.
  by rewrite processHit_score, processHit_consecutiveHits, processHit_comboMultiplier.
Qed.

Lemma shoot_scoring intersects w :
  assetsLoaded w = true →
  scoring (shoot intersects w) = scoring (resolve w (outcome_of intersects w)).
Proof.
  intros Hready. unfold shoot, outcome_of. rewrite Hready. cbn [negb].
  destruct intersects as [|i0 rest]; [done|].
  destruct (userData_of (object i0) w) as [td|]; cbn [resolve].
  - destruct (findIndex _ _) as [i|]; [|done].
    apply (frame_scoring _ _ (removeTarget_loop_frame _ _ _)).
  - by rewrite !processMiss_scoring.
Qed.

Lemma shoot_assetsLoaded intersects w : assetsLoaded (shoot intersects w) = assetsLoaded w.
Proof.
  unfold shoot. destruct (assetsLoaded w) eqn:Hready; [|done]. cbn [negb].
  destruct intersects as [|i0 rest].
  { unfold processMiss. by destruct (0 <? consecutiveHits w). }
  destruct (userData_of (object i0) w) as [td|].
  - destruct (findIndex _ _) as [i|]; [|done].
    by rewrite (frame_assetsLoaded _ _ (removeTarget_loop_frame _ _ _)).
  - unfold processMiss. cbn. by destruct (0 <? consecutiveHits w).
Qed.

Lemma update_assetsLoaded deltaTime integrate rnd w :
  assetsLoaded (update deltaTime integrate rnd w) = assetsLoaded w.
Proof.
  unfold update. destruct (assetsLoaded w) eqn:Hready; [|done]. cbn [negb].
  unfold targets_forEach.
  rewrite (frame_assetsLoaded _ _ (forEach_from_loop_frame _ _ _)).
  by case_match.
Qed.

Lemma resolve_scoring_ext w1 w2 o :
  scoring w1 = scoring w2 → scoring (resolve w1 o) = scoring (resolve w2 o).
Proof.
  unfold scoring at 1 2. intros [= Hs Hc Hm]. destruct o as [td p|]; cbn [resolve].
  - by rewrite !processHit_scoring, Hs, Hc.
  - by rewrite !processMiss_scoring, Hs.
Qed.

Lemma play_scoring_ext os w1 w2 :
  scoring w1 = scoring w2 → scoring (play os w1) = scoring (play os w2).
Proof.
  revert w1 w2. induction os as [|o os IH]; intros w1 w2 Hs; [done|].
  change (scoring (play os (resolve w1 o)) = scoring (play os (resolve w2 o))).
  by apply IH, resolve_scoring_ext.
Qed.

Lemma run_scoring_play events w :
  assetsLoaded w = true →
  forallb (λ e, negb (is_AssetsReady e)) events = true →
  scoring (run events w) = scoring (play (outcomes events w) w).
Proof.
  revert w. induction events as [|e events IH]; intros w Hready; [done|].
  cbn [forallb]. intros [He Hes]%andb_prop.
  change (run (e :: events) w) with (run events (step w e)).
  destruct e as [|deltaTime integrate rnd|intersects]; [done| |]; cbn [outcomes step].
  - rewrite IH; [|by rewrite update_assetsLoaded|done].
    cbn [app]. apply play_scoring_ext, update_scoring.
  - rewrite IH; [|by rewrite shoot_assetsLoaded|done].
    rewrite Hready. cbn [app].
    change (play (outcome_of intersects w :: outcomes events (shoot intersects w)) w)
      with (play (outcomes events (shoot intersects w)) (resolve w (outcome_of intersects w))).
    by apply play_scoring_ext, shoot_scoring.
Qed.

(** X2. The score of a whole session, frames and pointer events mixed, is
    the score of its shots alone: after the load callback, and as long as it
    does not fire again, the score is the sum over the hits of the rounded
    product of base points and the multiplier of the streak the hit
    completes. *)
Theorem session_score_is_sum_over_shots (events : list Event) (w : World) :
  forallb (λ e, negb (is_AssetsReady e)) events = true →
  score (run events (onLoad w)) = expected_score [] (outcomes events (onLoad w)).
Proof.
  intros Hev.
  pose proof (run_scoring_play events (onLoad w) eq_refl Hev) as Hs.
  unfold scoring in Hs. injection Hs as Hs _ _.
  rewrite Hs.
  rewrite (play_score_from (outcomes events (onLoad w)) [] (onLoad w)); [|done].
  change (score (onLoad w)) with 0. lia.
Qed.

Lemma session_score_is_sum_over_shots_witness :
  score (run [Frame 2 rest_physics (λ _, draw_8_10);
              PointerDown [mkIntersection (TargetMesh 0) origin];
              Frame 2 rest_physics (λ _, draw_0);
              PointerDown []] (onLoad init))
  = expected_score []
      (outcomes [Frame 2 rest_physics (λ _, draw_8_10);
                 PointerDown [mkIntersection (TargetMesh 0) origin];
                 Frame 2 rest_physics (λ _, draw_0);
                 PointerDown []] (onLoad init)).
Proof.
  apply (session_score_is_sum_over_shots
           [Frame 2 rest_physics (λ _, draw_8_10);
            PointerDown [mkIntersection (TargetMesh 0) origin];
            Frame 2 rest_physics (λ _, draw_0);
            PointerDown []] init).
  reflexivity.
Defined.

Lemma step_streak_in_step w e :
  0 <= consecutiveHits w ∧ comboMultiplier w = table_multiplier (consecutiveHits w) →
  0 <= consecutiveHits (step w e)
  ∧ comboMultiplier (step w e) = table_multiplier (consecutiveHits (step w e)).
Proof.
  intros [Hc Hm]. destruct e as [|deltaTime integrate rnd|intersects]; cbn [step].
  - done.
  - pose proof (update_scoring deltaTime integrate rnd w) as Hs.
    unfold scoring in Hs. injection Hs as _ -> ->. done.
  - destruct (assetsLoaded w) eqn:Hready.
    + pose proof (shoot_scoring intersects w Hready) as Hs.
      unfold scoring in Hs. injection Hs as _ -> ->.
      destruct (outcome_of intersects w) as [td p|]; cbn [resolve].
      * rewrite processHit_consecutiveHits, processHit_comboMultiplier. split; [lia|done].
      * pose proof (processMiss_scoring w) as Hs.
        unfold scoring in Hs.
        assert (consecutiveHits (processMiss w) = 0) as -> by congruence.
        assert (comboMultiplier (processMiss w) = 1%Q) as -> by congruence.
        done.
    + unfold shoot. by rewrite Hready.
Qed.

(** X3. At every point of a session the streak counter is not negative
    and the multiplier is the threshold-table value of the streak: the two
    never drift apart. *)
Theorem multiplier_tracks_streak (events : list Event) :
  0 <= consecutiveHits (run events init)
  ∧ comboMultiplier (run events init) = table_multiplier (consecutiveHits (run events init)).
Proof.
  assert (∀ w, 0 <= consecutiveHits w
               ∧ comboMultiplier w = table_multiplier (consecutiveHits w) →
               0 <= consecutiveHits (run events w)
               ∧ comboMultiplier (run events w) = table_multiplier (consecutiveHits (run events w)))
    as Hrun.
  { induction events as [|e events IH]; intros w Hw; [done|].
    apply IH, step_streak_in_step, Hw. }
  by apply Hrun.
Qed.

(** X4. A hit moves the score in the direction of the type's points and by
    at least their amount and at most three times their amount: STANDARD and
    BONUS targets never cost points, PENALTY targets never earn any. *)
Theorem pointsEarned_sign_and_bounds (targetData : TargetData) (p : Vec3) (w : World) :
  Z.sgn (pointsEarned targetData p w) = Z.sgn (points (targetTypes (type targetData)))
  ∧ Z.abs (points (targetTypes (type targetData))) <= Z.abs (pointsEarned targetData p w)
  ∧ Z.abs (pointsEarned targetData p w) <= 3 * Z.abs (points (targetTypes (type targetData))).
Proof.
  unfold pointsEarned. rewrite processHit_score.
  replace (score w + Math_round (inject_Z (points (targetTypes (type targetData)))
             * table_multiplier (consecutiveHits w + 1)) - score w)
    with (Math_round (inject_Z (points (targetTypes (type targetData)))
             * table_multiplier (consecutiveHits w + 1))) by lia.
  unfold table_multiplier.
  destruct (type targetData);
    repeat match goal with
           | |- context [?a <? ?b] => destruct (a <? b)
           end; by vm_compute.
Qed.

(** ** Spawning *)

Lemma update_advance deltaTime integrate rnd w :
  assetsLoaded w = true →
  update deltaTime integrate rnd w
  = targets_forEach syncCallback (advance deltaTime integrate rnd w).
Proof. intros Hready. unfold update, advance. by rewrite Hready. Qed.

Lemma advance_spawn_due deltaTime integrate rnd w :
  advance deltaTime integrate rnd w
  = if spawn_due deltaTime w
    then set_targetSpawnInterval ((8 # 10) + draw_val (rnd 10%nat) * (7 # 10))%Q
           (set_timeSinceLastSpawn 0%Q
              (spawnTarget rnd
                 (set_timeSinceLastSpawn (timeSinceLastSpawn w + deltaTime)%Q
                    (physicsWorld_step integrate w))))
    else set_timeSinceLastSpawn (timeSinceLastSpawn w + deltaTime)%Q
           (physicsWorld_step integrate w).
Proof. reflexivity. Qed.



Lemma shoot_spawn_state intersects w :
  targetSpawnInterval (shoot intersects w) = targetSpawnInterval w
  ∧ timeSinceLastSpawn (shoot intersects w) = timeSinceLastSpawn w
  ∧ nextUuid (shoot intersects w) = nextUuid w
  ∧ bodies (shoot intersects w) = bodies w
  ∧ maxTargets (shoot intersects w) = maxTargets w.
Proof.
  unfold shoot. destruct (assetsLoaded w); [|done]. cbn [negb].
  destruct intersects as [|i0 rest].
  { unfold processMiss. by destruct (0 <? consecutiveHits w). }
  destruct (userData_of (object i0) w) as [td|].
  - destruct (findIndex _ _) as [i|]; [|done].
    by destruct (removeTarget_loop_frame td i (processHit td (point i0) w)) as [_ _ -> -> -> -> ->].
  - unfold processMiss. cbn. by destruct (0 <? consecutiveHits w).
Qed.

Lemma shoot_targets_sublist intersects w :
  targets (shoot intersects w) `sublist_of` targets w.
Proof.
  unfold shoot. destruct (assetsLoaded w); [|done]. cbn [negb].
  destruct intersects as [|i0 rest]; [by rewrite processMiss_targets|].
  destruct (userData_of (object i0) w) as [td|].
  - destruct (findIndex _ _) as [i|]; [|done].
    rewrite removeTarget_targets. apply sublist_delete.
  - by rewrite processMiss_targets.
Qed.

(** X6. Frames and shots keep to their own halves of the state.  A frame
    never changes the score, the streak or the multiplier.  A shot never
    spawns and never touches the spawn timer, the spawn interval, the bodies
    or the cap; the targets tracked after it are those tracked before it, in
    the same order, with at most the one it hit taken out. *)
Theorem frames_and_shots_are_separate (deltaTime : Q) (integrate : nat → Body → Body)
    (rnd : nat → Draw) (intersects : list Intersection) (w : World) :
  scoring (update deltaTime integrate rnd w) = scoring w
  ∧ targetSpawnInterval (shoot intersects w) = targetSpawnInterval w
  ∧ timeSinceLastSpawn (shoot intersects w) = timeSinceLastSpawn w
  ∧ nextUuid (shoot intersects w) = nextUuid w
  ∧ bodies (shoot intersects w) = bodies w
  ∧ maxTargets (shoot intersects w) = maxTargets w
  ∧ targets (shoot intersects w) `sublist_of` targets w
  ∧ (length (targets w) ≤ S (length (targets (shoot intersects w))))%nat.
Proof.
  split; [apply update_scoring|].
  destruct (shoot_spawn_state intersects w) as (-> & -> & -> & -> & ->).
  split_and!; try done; [apply shoot_targets_sublist|].
  unfold shoot. destruct (assetsLoaded w); [|cbn; lia]. cbn [negb].
  destruct intersects as [|i0 rest]; [rewrite processMiss_targets; lia|].
  destruct (userData_of (object i0) w) as [td|].
  - destruct (findIndex _ _) as [i|] eqn:Hfind; [|cbn; lia].
    apply findIndex_Some in Hfind as (t & Hi & _).
    rewrite removeTarget_targets, length_delete by eauto.
    change (targets (processHit td (point i0) w)) with (targets w) in *.
    apply lookup_lt_Some in Hi. lia.
  - rewrite processMiss_targets. cbn. lia.
Qed.



(** ** What a spawn creates *)

Lemma spawnTarget_body (rnd : nat → Draw) (w : World) :
  bodies (spawnTarget rnd w) !! nextUuid w
  = Some (mkBody (spawn_position rnd) identity_quaternion
            (mkVec3 ((draw_val (rnd 4%nat) - (1 # 2)) * 2) (draw_val (rnd 5%nat) * 3)
               ((draw_val (rnd 6%nat) - (1 # 2)) * 2))%Q
            (mkVec3 ((draw_val (rnd 7%nat) - (1 # 2)) * 3) ((draw_val (rnd 8%nat) - (1 # 2)) * 3)
               ((draw_val (rnd 9%nat) - (1 # 2)) * 3))%Q).
Proof. unfold spawnTarget; cbn. apply lookup_insert_eq. Qed.

(** X8. A spawn appends one target, whose mesh, body and id are the fresh
    uuid, to the end of the tracking array, the scene and the physics world.
    Mesh and body start at the same position, with lateral coordinate in
    [-10, 10), height in [2, 7) and depth in [-12, 3), both unrotated; the
    body's velocity lies in [-1, 1) x [0, 3) x [-1, 1) and each component of
    its spin in [-1.5, 1.5); geometry and material are live. *)
Theorem spawnTarget_creates_linked_pair (rnd : nat → Draw) (w : World) :
  ∃ ty m b,
    targets (spawnTarget rnd w)
    = targets w ++ [mkTargetData (nextUuid w) (nextUuid w) ty (nextUuid w)]
    ∧ scene (spawnTarget rnd w) = scene w ++ [TargetMesh (nextUuid w)]
    ∧ physicsWorld (spawnTarget rnd w) = physicsWorld w ++ [TargetBody (nextUuid w)]
    ∧ nextUuid (spawnTarget rnd w) = S (nextUuid w)
    ∧ meshes (spawnTarget rnd w) !! nextUuid w = Some m
    ∧ bodies (spawnTarget rnd w) !! nextUuid w = Some b
    ∧ userData_targetData m
      = Some (mkTargetData (nextUuid w) (nextUuid w) ty (nextUuid w))
    ∧ geometry m = Some Live ∧ material m = Some Live
    ∧ mesh_position m = body_position b
    ∧ mesh_quaternion m = identity_quaternion ∧ body_quaternion b = identity_quaternion
    ∧ (-10 <= vx (body_position b) < 10)%Q
    ∧ (2 <= vy (body_position b) < 7)%Q
    ∧ (-12 <= vz (body_position b) < 3)%Q
    ∧ (-1 <= vx (velocity b) < 1)%Q
    ∧ (0 <= vy (velocity b) < 3)%Q
    ∧ (-1 <= vz (velocity b) < 1)%Q
    ∧ (-(3 # 2) <= vx (angularVelocity b) < 3 # 2)%Q
    ∧ (-(3 # 2) <= vy (angularVelocity b) < 3 # 2)%Q
    ∧ (-(3 # 2) <= vz (angularVelocity b) < 3 # 2)%Q.
Proof.
  eexists (randomTypeKey (rnd 0%nat)), _, _.
  split; [reflexivity|]. split; [reflexivity|]. split; [reflexivity|].
  split; [reflexivity|].
  split; [apply spawnTarget_mesh|]. split; [apply spawnTarget_body|].
  cbn [userData_targetData geometry material mesh_position mesh_quaternion
       body_position body_quaternion velocity angularVelocity].
  do 6 (split; [reflexivity|]).
  destruct (spawn_position_ranges rnd) as (Hx & Hy & Hz).
  do 3 (split; [assumption|]).
  cbn [vx vy vz].
  destruct (draw_bounds (rnd 4%nat)), (draw_bounds (rnd 5%nat)), (draw_bounds (rnd 6%nat)),
    (draw_bounds (rnd 7%nat)), (draw_bounds (rnd 8%nat)), (draw_bounds (rnd 9%nat)).
  repeat split; lra.
Qed.




(** ** The prune pass, target by target *)

Lemma syncCallback_above td k w :
  below_floor w td = false → targets (syncCallback td k w) = targets w.
Proof.
  unfold below_floor, syncCallback. destruct (bodies w !! body td) as [b|]; [|done].
  by intros ->.
Qed.

Lemma syncCallback_below td k w :
  below_floor w td = true → targets (syncCallback td k w) = delete k (targets w).
Proof.
  unfold below_floor, syncCallback. destruct (bodies w !! body td) as [b|]; [|done].
  intros ->. by rewrite removeTarget_targets.
Qed.

Lemma below_floor_loop_frame w w' td :
  loop_frame w w' → below_floor w' td = below_floor w td.
Proof. intros [_ _ _ _ _ Hb _]. unfold below_floor. by rewrite Hb. Qed.

Lemma forEach_from_length_le n k w :
  (length (targets (forEach_from syncCallback n k w)) ≤ length (targets w))%nat.
Proof.
  revert k w. induction n as [|n IH]; intros k w; cbn; [done|].
  etrans; [apply IH|].
  destruct (targets w !! k) as [td|]; [|done].
  destruct (syncCallback_targets td k w) as [-> | ->]; [done|].
  apply length_delete_le.
Qed.

Lemma forEach_from_keeps_above n k w td :
  td ∈ targets w → below_floor w td = false →
  td ∈ targets (forEach_from syncCallback n k w).
Proof.
  revert k w. induction n as [|n IH]; intros k w Hin Habove; cbn; [done|].
  destruct (targets w !! k) as [t|] eqn:Hk; [|by apply IH].
  apply IH.
  - destruct (below_floor w t) eqn:Ht.
    + rewrite syncCallback_below by done.
      eapply elem_of_delete_ne; [done| |done]. intros ->. congruence.
    + by rewrite syncCallback_above.
  - by rewrite (below_floor_loop_frame w _ td (syncCallback_loop_frame t k w)).
Qed.

Lemma advance_targets_incl deltaTime integrate rnd w td :
  td ∈ targets w → td ∈ targets (advance deltaTime integrate rnd w).
Proof.
  intros Hin. rewrite advance_spawn_due. destruct (spawn_due deltaTime w); [|done].
  change (td ∈ targets w ++ [mkTargetData (nextUuid w) (nextUuid w)
                               (randomTypeKey (rnd 0%nat)) (nextUuid w)]).
  apply elem_of_app. by left.
Qed.

Lemma advance_body deltaTime integrate rnd w td b :
  consistent w → td ∈ targets w → bodies w !! body td = Some b →
  bodies (advance deltaTime integrate rnd w) !! body td = Some (integrate (body td) b).
Proof.
  intros Hc Hin Hb.
  destruct (consistent_tracked_shape w td Hc Hin) as (_ & Hbody & Hlt).
  assert (bodies (physicsWorld_step integrate w) !! body td = Some (integrate (body td) b))
    as Hstep.
  { cbn. rewrite map_lookup_imap, Hb. cbn. rewrite bool_decide_eq_true_2; [done|].
    rewrite (physics_tracks w Hc), Hbody. apply elem_of_cons. right.
    apply list_elem_of_fmap. exists (id td). split; [done|].
    apply list_elem_of_fmap. eauto. }
  rewrite advance_spawn_due. destruct (spawn_due deltaTime w); [|exact Hstep].
  change (<[nextUuid w := mkBody (spawn_position rnd) identity_quaternion
              (mkVec3 ((draw_val (rnd 4%nat) - (1 # 2)) * 2) (draw_val (rnd 5%nat) * 3)
                 ((draw_val (rnd 6%nat) - (1 # 2)) * 2))%Q
              (mkVec3 ((draw_val (rnd 7%nat) - (1 # 2)) * 3)
                 ((draw_val (rnd 8%nat) - (1 # 2)) * 3)
                 ((draw_val (rnd 9%nat) - (1 # 2)) * 3))%Q]>
            (bodies (physicsWorld_step integrate w)) !! body td
          = Some (integrate (body td) b)).
  rewrite lookup_insert_ne by lia. exact Hstep.
Qed.

(** X10. A frame never retires a target that is in bounds: a tracked target
    whose body the physics step leaves at height -10 or above is still
    tracked after the frame, whatever happens to the other targets. *)
Theorem update_keeps_targets_in_bounds (deltaTime : Q) (integrate : nat → Body → Body)
    (rnd : nat → Draw) (w : World) (td : TargetData) (b : Body) :
  consistent w →
  td ∈ targets w →
  bodies w !! body td = Some b →
  Qltb (vy (body_position (integrate (body td) b))) (-10) = false →
  td ∈ targets (update deltaTime integrate rnd w).
Proof.
  intros Hc Hin Hb Habove.
  destruct (assetsLoaded w) eqn:Hready; [|unfold update; by rewrite Hready].
  rewrite update_advance by done.
  apply forEach_from_keeps_above.
  - by apply advance_targets_incl.
  - unfold below_floor.
    by rewrite (advance_body deltaTime integrate rnd w td b Hc Hin Hb).
Qed.

Lemma update_keeps_targets_in_bounds_witness :
  mkTargetData 1 1 STANDARD 1 ∈ targets (update 0 rest_physics (λ _, draw_0) two_targets).
Proof.
  eapply (update_keeps_targets_in_bounds 0 rest_physics (λ _, draw_0) two_targets
            (mkTargetData 1 1 STANDARD 1)).
  - apply run_consistent, init_consistent.
  - vm_compute. apply list_elem_of_further, list_elem_of_here.
  - vm_compute. reflexivity.
  - vm_compute. reflexivity.
Defined.

Lemma consistent_mesh_inj w td t :
  consistent w → td ∈ targets w → t ∈ targets w → mesh td = mesh t → td = t.
Proof.
  intros Hc Htd Ht Hmesh.
  destruct (consistent_tracked_shape w td Hc Htd) as (Hm1 & _ & _).
  destruct (consistent_tracked_shape w t Hc Ht) as (Hm2 & _ & _).
  apply list_elem_of_lookup in Htd as [i Hi]. apply list_elem_of_lookup in Ht as [j Hj].
  pose proof (consistent_ids_lookup w i td Hi) as Hi'.
  pose proof (consistent_ids_lookup w j t Hj) as Hj'.
  assert (id td = id t) as Hid by congruence. rewrite Hid in Hi'.
  pose proof (NoDup_lookup _ _ _ _ (ids_unique w Hc) Hi' Hj') as ->. congruence.
Qed.

(** One step of the loop on a target that is in bounds: only its mesh
    changes. *)
Lemma syncCallback_sync td k w :
  consistent w → td ∈ targets w → below_floor w td = false →
  targets (syncCallback td k w) = targets w
  ∧ effects (syncCallback td k w) = effects w
  ∧ scene (syncCallback td k w) = scene w
  ∧ physicsWorld (syncCallback td k w) = physicsWorld w
  ∧ bodies (syncCallback td k w) = bodies w
  ∧ synchronized (syncCallback td k w) td
  ∧ ∀ t, t ∈ targets w → synchronized w t → synchronized (syncCallback td k w) t.
Proof.
  intros Hc Hin Habove.
  destruct (tracked_linked w Hc td Hin) as (m & Hm & _ & _ & _ & [b Hb]).
  unfold below_floor in Habove. unfold syncCallback. rewrite Hb in *. rewrite Habove.
  split_and!; try done.
  - exists (sync_mesh b m), b. cbn. by rewrite lookup_alter_eq, Hm.
  - intros t Ht (m' & b' & Hm' & Hb' & Hp & Hq).
    destruct (decide (mesh t = mesh td)) as [Heq|Hne].
    + assert (t = td) as -> by (by eapply consistent_mesh_inj).
      exists (sync_mesh b m), b. cbn. by rewrite lookup_alter_eq, Hm.
    + exists m', b'. cbn. by rewrite lookup_alter_ne.
Qed.

Lemma clean_pass_from n k w :
  consistent w →
  (∀ td, td ∈ targets w → below_floor w td = false) →
  targets (forEach_from syncCallback n k w) = targets w
  ∧ effects (forEach_from syncCallback n k w) = effects w
  ∧ scene (forEach_from syncCallback n k w) = scene w
  ∧ physicsWorld (forEach_from syncCallback n k w) = physicsWorld w
  ∧ (∀ t, t ∈ targets w → synchronized w t →
          synchronized (forEach_from syncCallback n k w) t)
  ∧ (∀ j t, (k ≤ j < k + n)%nat → targets w !! j = Some t →
            synchronized (forEach_from syncCallback n k w) t).
Proof.
  revert k w. induction n as [|n IH]; intros k w Hc Habove; cbn [forEach_from].
  { split_and!; try done. intros j t ?. lia. }
  destruct (targets w !! k) as [td|] eqn:Hk.
  - assert (td ∈ targets w) as Hin by (by eapply list_elem_of_lookup_2).
    destruct (syncCallback_sync td k w Hc Hin (Habove td Hin))
      as (Ht & He & Hs & Hp & Hb & Hsync & Hkeep).
    set (w1 := syncCallback td k w) in *.
    assert (consistent w1) as Hc1 by (by apply syncCallback_consistent).
    assert (∀ t, t ∈ targets w1 → below_floor w1 t = false) as Habove1.
    { intros t Hin1. rewrite Ht in Hin1.
      rewrite (below_floor_loop_frame w w1 t (syncCallback_loop_frame td k w)). auto. }
    destruct (IH (S k) w1 Hc1 Habove1) as (Ht' & He' & Hs' & Hp' & Hkeep' & Hnew').
    rewrite Ht', He', Hs', Hp', Ht, He, Hs, Hp. split_and!; try done.
    + intros t Hint Hst. apply Hkeep'; [by rewrite Ht|]. by apply Hkeep.
    + intros j t Hj Hjt. destruct (decide (j = k)) as [->|Hne].
      * assert (t = td) as -> by congruence.
        apply Hkeep'; [by rewrite Ht|done].
      * apply (Hnew' j t); [lia|by rewrite Ht].
  - destruct (IH (S k) w Hc Habove) as (Ht' & He' & Hs' & Hp' & Hkeep' & Hnew').
    split_and!; try done.
    intros j t Hj Hjt. destruct (decide (j = k)) as [->|Hne]; [congruence|].
    apply (Hnew' j t); [lia|done].
Qed.

(** X11. When no tracked target is below the floor, the target loop of a
    frame visits every target: afterwards every tracked mesh has the position
    and the orientation of its body, and the loop has removed nothing, logged
    nothing and left scene and physics world as they were. *)
Theorem clean_pass_synchronizes_every_target (w : World) :
  consistent w →
  forallb (λ td, negb (below_floor w td)) (targets w) = true →
  targets (targets_forEach syncCallback w) = targets w
  ∧ effects (targets_forEach syncCallback w) = effects w
  ∧ scene (targets_forEach syncCallback w) = scene w
  ∧ physicsWorld (targets_forEach syncCallback w) = physicsWorld w
  ∧ ∀ td, td ∈ targets w → synchronized (targets_forEach syncCallback w) td.
Proof.
  intros Hc Hall.
  assert (∀ td, td ∈ targets w → below_floor w td = false) as Habove.
  { intros td Hin. rewrite forallb_forall in Hall.
    apply list_elem_of_In, Hall in Hin. by apply negb_true_iff. }
  destruct (clean_pass_from (length (targets w)) 0 w Hc Habove)
    as (Ht & He & Hs & Hp & _ & Hnew).
  unfold targets_forEach. split_and!; try done.
  intros td [j Hj]%list_elem_of_lookup.
  apply (Hnew j td); [|done]. apply lookup_lt_Some in Hj. lia.
Qed.

Lemma clean_pass_synchronizes_every_target_witness :
  targets (targets_forEach syncCallback (advance 0 lift_physics (λ _, draw_0) two_targets))
  = targets (advance 0 lift_physics (λ _, draw_0) two_targets).
Proof.
  apply (clean_pass_synchronizes_every_target
           (advance 0 lift_physics (λ _, draw_0) two_targets)).
  - change (advance 0 lift_physics (λ _, draw_0) two_targets)
      with (set_timeSinceLastSpawn (timeSinceLastSpawn two_targets + 0)%Q
              (physicsWorld_step lift_physics two_targets)).
    apply set_timeSinceLastSpawn_consistent, physicsWorld_step_consistent.
    apply run_consistent, init_consistent.
  - vm_compute. reflexivity.
Defined.

Lemma progress_from n k w j t :
  (k ≤ j < k + n)%nat → targets w !! j = Some t → below_floor w t = true →
  (length (targets (forEach_from syncCallback n k w)) < length (targets w))%nat.
Proof.
  revert k w. induction n as [|n IH]; intros k w Hj Hjt Hlow; [lia|].
  cbn [forEach_from].
  destruct (targets w !! k) as [t0|] eqn:Hk; last first.
  { apply lookup_ge_None in Hk. apply lookup_lt_Some in Hjt. lia. }
  destruct (below_floor w t0) eqn:Ht0.
  - eapply Nat.le_lt_trans; [apply forEach_from_length_le|].
    rewrite syncCallback_below, length_delete by eauto.
    apply lookup_lt_Some in Hk. lia.
  - assert (j ≠ k) as Hne by (intros ->; congruence).
    pose proof (syncCallback_above t0 k w Ht0) as Hsame.
    rewrite <- Hsame. apply IH; [lia|by rewrite Hsame|].
    by rewrite (below_floor_loop_frame w _ t (syncCallback_loop_frame t0 k w)).
Qed.

(** X12. When some tracked target is below the floor, the target loop of a
    frame retires at least one target: every pass that finds a target out of
    bounds leaves the tracking array strictly shorter. *)
Theorem prune_pass_makes_progress (w : World) :
  existsb (below_floor w) (targets w) = true →
  (length (targets (targets_forEach syncCallback w)) < length (targets w))%nat.
Proof.
  intros (t & Hin & Hlow)%existsb_exists.
  apply list_elem_of_In, list_elem_of_lookup in Hin as [j Hj].
  unfold targets_forEach.
  apply (progress_from _ 0 w j t); [|done..].
  apply lookup_lt_Some in Hj. lia.
Qed.

Lemma prune_pass_makes_progress_witness :
  (length (targets (targets_forEach syncCallback
                      (advance 0 drop_physics (λ _, draw_0) two_targets)))
   < length (targets (advance 0 drop_physics (λ _, draw_0) two_targets)))%nat.
Proof.
  apply (prune_pass_makes_progress (advance 0 drop_physics (λ _, draw_0) two_targets)).
  vm_compute. reflexivity.
Defined.

(** ** Resource accounting *)

Lemma omap_snoc_None {A B} (f : A → option B) (l : list A) (e : A) :
  f e = None → omap f (l ++ [e]) = omap f l.
Proof. intros He. rewrite omap_app. cbn. by rewrite He, app_nil_r. Qed.

Lemma accounted_frame (w w' : World) :
  targets w' = targets w → meshes w' = meshes w → nextUuid w' = nextUuid w →
  effects w' = effects w → accounted w → accounted w'.
Proof.
  intros Ht Hm Hn He []. constructor; unfold ids in *; rewrite ?Ht, ?Hm, ?Hn, ?He; done.
Qed.

Lemma accounted_emit (e : Effect) (w : World) : quiet e → accounted w → accounted (emit e w).
Proof.
  intros (H1 & H2 & H3 & H4 & H5 & H6) [].
  constructor; unfold teardowns, ids in *; cbn [effects emit targets meshes nextUuid];
    rewrite ?omap_snoc_None by done; done.
Qed.

Lemma removeTarget_effects_exact td i w :
  consistent w → td ∈ targets w →
  effects (removeTarget td i w)
  = effects w ++ [scene_remove (TargetMesh (id td)); geometry_dispose (id td);
                  material_dispose (id td); physicsWorld_removeBody (TargetBody (id td))].
Proof.
  intros Hc Hin.
  destruct (tracked_linked w Hc td Hin) as (m & Hm & _ & Hg & Hr & _).
  destruct (consistent_tracked_shape w td Hc Hin) as (Hmesh & Hbody & _).
  unfold removeTarget, has_resource. cbn. rewrite Hm. cbn. rewrite Hg.
  cbn. rewrite lookup_alter_eq, Hm. cbn. rewrite Hr. cbn.
  rewrite Hmesh, Hbody, <- !app_assoc. done.
Qed.

Lemma removeTarget_accounted td i w :
  consistent w → accounted w → targets w !! i = Some td →
  accounted (removeTarget td i w).
Proof.
  intros Hc Ha Hi.
  assert (td ∈ targets w) as Hin by (by eapply list_elem_of_lookup_2).
  destruct (consistent_tracked_shape w td Hc Hin) as (Hmesh & Hbody & Hlt).
  pose proof (consistent_ids_lookup w i td Hi) as Hid.
  pose proof (removeTarget_effects_exact td i w Hc Hin) as He.
  assert (ids (removeTarget td i w) = delete i (ids w)) as Hids.
  { unfold ids. by rewrite removeTarget_targets, list_fmap_delete. }
  destruct Ha as [A1 A2 A3 A4 A5 A6 A7].
  constructor; rewrite ?removeTarget_nextUuid, ?Hids; unfold teardowns in *; rewrite ?He.
  - rewrite omap_app. cbn. rewrite <- A1.
    rewrite (delete_Permutation (ids w) i (id td) Hid) at 2.
    rewrite (Permutation_app_comm (omap teardown_of (effects w)) [id td]).
    cbn. by rewrite Permutation_middle.
  - rewrite omap_app. cbn. by rewrite app_nil_r.
  - rewrite omap_app. cbn. by rewrite app_nil_r.
  - rewrite !omap_app. cbn. by rewrite A4.
  - rewrite !omap_app. cbn. by rewrite A5.
  - rewrite !omap_app. cbn. by rewrite A6.
  - rewrite omap_app.
    change (omap teardown_of [scene_remove (TargetMesh (id td)); geometry_dispose (id td);
                              material_dispose (id td);
                              physicsWorld_removeBody (TargetBody (id td))])
      with [id td].
    intros u [Hu| ->%list_elem_of_singleton]%elem_of_app.
    + destruct (A7 u Hu) as (m & ty & Hm & Hrest).
      exists m, ty. split; [|done].
      rewrite removeTarget_meshes_ne; [done|].
      rewrite Hmesh. intros ->.
      apply (teardowns_gone w Hc) in Hu as [_ Hu]. apply Hu.
      by eapply list_elem_of_lookup_2.
    + destruct (tracked_linked w Hc td Hin) as (m & Hm & Hu & Hg & Hr & _).
      rewrite Hmesh in Hm.
      pose proof (removeTarget_meshes_eq td i w m) as Hm'. rewrite Hmesh in Hm'.
      rewrite (Hm' Hm). eexists _, (type td). split; [done|]. cbn.
      rewrite Hg, Hr, Hu. split_and!; try done.
      f_equal. destruct td; cbn in *. congruence.
Qed.

Lemma spawnTarget_accounted rnd w :
  consistent w → accounted w → accounted (spawnTarget rnd w).
Proof.
  intros Hc [A1 A2 A3 A4 A5 A6 A7].
  set (n := nextUuid w) in *.
  assert (ids (spawnTarget rnd w) = ids w ++ [n]) as Hids.
  { unfold ids, spawnTarget. cbn. by rewrite fmap_app. }
  assert (effects (spawnTarget rnd w)
          = effects w ++ [scene_add (TargetMesh n); physicsWorld_addBody (TargetBody n)]) as He.
  { unfold spawnTarget. cbn. by rewrite <- app_assoc. }
  constructor; rewrite ?Hids; unfold teardowns in *; rewrite ?He;
    change (nextUuid (spawnTarget rnd w)) with (S n); rewrite ?seq_S; cbn [Nat.add].
  - rewrite omap_app. cbn. rewrite app_nil_r, <- A1.
    rewrite <- !app_assoc. apply Permutation_app_head, Permutation_app_comm.
  - rewrite omap_app. cbn. by rewrite A2.
  - rewrite omap_app. cbn. by rewrite A3.
  - rewrite !omap_app. cbn. by rewrite !app_nil_r.
  - rewrite !omap_app. cbn. by rewrite !app_nil_r.
  - rewrite !omap_app. cbn. by rewrite !app_nil_r.
  - rewrite omap_app. cbn. rewrite app_nil_r. intros u Hu.
    destruct (A7 u Hu) as (m & ty & Hm & Hrest). exists m, ty. split; [|done].
    apply (teardowns_gone w Hc) in Hu as [Hlt _]. fold n in Hlt.
    unfold spawnTarget. cbn. rewrite lookup_insert_ne; [done|]. fold n. lia.
Qed.

Lemma sync_accounted b u w :
  accounted w → accounted (set_meshes (alter (sync_mesh b) u (meshes w)) w).
Proof.
  intros [A1 A2 A3 A4 A5 A6 A7]. constructor; try done.
  intros u' Hu'. destruct (A7 u' Hu') as (m & ty & Hm & Hg & Hr & Hd).
  cbn. destruct (decide (u = u')) as [->|Hne].
  - exists (sync_mesh b m), ty. by rewrite lookup_alter_eq, Hm.
  - exists m, ty. by rewrite lookup_alter_ne.
Qed.

Lemma syncCallback_accounted td k w :
  consistent w → accounted w → targets w !! k = Some td →
  accounted (syncCallback td k w).
Proof.
  intros Hc Ha Hk. unfold syncCallback.
  destruct (bodies w !! body td) as [b|]; [|done].
  pose proof (sync_consistent b (mesh td) w Hc) as Hc1.
  pose proof (sync_accounted b (mesh td) w Ha) as Ha1.
  case_match; [|done].
  apply removeTarget_accounted; [| |done].
  - eapply consistent_frame; [..|exact Hc1]; try reflexivity.
    cbn. rewrite teardowns_snoc. cbn. by rewrite app_nil_r.
  - by apply accounted_emit.
Qed.

Lemma forEach_from_accounted remaining k w :
  consistent w → accounted w → accounted (forEach_from syncCallback remaining k w).
Proof.
  revert k w. induction remaining as [|remaining IH]; intros k w Hc Ha; cbn; [done|].
  destruct (targets w !! k) as [td|] eqn:Hk; [|by apply IH].
  apply IH; [by apply syncCallback_consistent|by apply syncCallback_accounted].
Qed.

Lemma processHit_accounted td p w : accounted w → accounted (processHit td p w).
Proof.
  intros Ha. unfold processHit.
  apply accounted_emit; [done|]. apply accounted_emit; [done|].
  by eapply accounted_frame; [..|exact Ha].
Qed.

Lemma processMiss_accounted w : accounted w → accounted (processMiss w).
Proof.
  intros Ha. unfold processMiss. apply accounted_emit; [done|].
  destruct (0 <? consecutiveHits w).
  - assert (accounted (emit (console_log MissComboReset) w)) as Ha'
      by (by apply accounted_emit).
    by eapply accounted_frame; [..|exact Ha'].
  - by eapply accounted_frame; [..|exact Ha].
Qed.

Lemma onLoad_accounted w : accounted w → accounted (onLoad w).
Proof.
  intros Ha.
  assert (accounted (emit (console_log StartingGameLogic)
                       (emit (console_log AssetsLoadedMsg) (set_assetsLoaded true w)))) as Ha'.
  { apply accounted_emit; [done|]. apply accounted_emit; [done|].
    by eapply accounted_frame; [..|exact Ha]. }
  by eapply accounted_frame; [..|exact Ha'].
Qed.

Lemma set_timeSinceLastSpawn_accounted v w :
  accounted w → accounted (set_timeSinceLastSpawn v w).
Proof. intros []. by constructor. Qed.

Lemma set_targetSpawnInterval_accounted v w :
  accounted w → accounted (set_targetSpawnInterval v w).
Proof. intros []. by constructor. Qed.

Lemma update_accounted deltaTime integrate rnd w :
  consistent w → accounted w → accounted (update deltaTime integrate rnd w).
Proof.
  intros Hc Ha.
  destruct (assetsLoaded w) eqn:Hready; [|unfold update; by rewrite Hready].
  rewrite update_advance by done.
  assert (consistent (set_timeSinceLastSpawn (timeSinceLastSpawn w + deltaTime)%Q
                        (physicsWorld_step integrate w))) as Hc1.
  { by apply set_timeSinceLastSpawn_consistent, physicsWorld_step_consistent. }
  assert (accounted (set_timeSinceLastSpawn (timeSinceLastSpawn w + deltaTime)%Q
                       (physicsWorld_step integrate w))) as Ha1.
  { apply set_timeSinceLastSpawn_accounted. by destruct Ha. }
  rewrite advance_spawn_due. unfold targets_forEach.
  destruct (spawn_due deltaTime w).
  - apply forEach_from_accounted.
    + by apply set_targetSpawnInterval_consistent, set_timeSinceLastSpawn_consistent,
        spawnTarget_consistent.
    + apply set_targetSpawnInterval_accounted, set_timeSinceLastSpawn_accounted.
      by apply spawnTarget_accounted.
  - by apply forEach_from_accounted.
Qed.

Lemma shoot_accounted intersects w :
  consistent w → accounted w → accounted (shoot intersects w).
Proof.
  intros Hc Ha. unfold shoot. destruct (assetsLoaded w); [|done]. cbn [negb].
  destruct intersects as [|i0 rest]; [by apply processMiss_accounted|].
  destruct (userData_of (object i0) w) as [td|] eqn:Hu.
  - pose proof (processHit_consistent td (point i0) w Hc) as Hc1.
    pose proof (processHit_accounted td (point i0) w Ha) as Ha1.
    destruct (findIndex _ _) as [i|] eqn:Hfind.
    + apply removeTarget_accounted; [done..|].
      by apply (shoot_call_site w (object i0)).
    + by apply accounted_emit.
  - apply processMiss_accounted. by apply accounted_emit.
Qed.

Lemma init_accounted : accounted init.
Proof. constructor; try done. by intros u ?%elem_of_nil. Qed.

Lemma run_accounted events w :
  consistent w → accounted w → consistent (run events w) ∧ accounted (run events w).
Proof.
  revert w. induction events as [|e events IH]; intros w Hc Ha; [done|].
  apply IH; [by apply step_consistent|].
  destruct e; cbn [step];
    auto using onLoad_accounted, update_accounted, shoot_accounted.
Qed.

(** X13. Nothing is lost and nothing is counted twice: at every point of a
    session the uuids handed out so far are 0, 1, ... in spawn order, and
    each of them belongs to exactly one of the tracked targets and the
    targets already torn down. *)
Theorem every_spawned_target_is_tracked_or_torn_down (events : list Event) :
  omap spawn_of (effects (run events init)) = seq 0 (nextUuid (run events init))
  ∧ omap body_addition_of (effects (run events init)) = seq 0 (nextUuid (run events init))
  ∧ ids (run events init) ++ teardowns (effects (run events init))
    ≡ₚ seq 0 (nextUuid (run events init))
  ∧ NoDup (ids (run events init) ++ teardowns (effects (run events init))).
Proof.
  destruct (run_accounted events init init_consistent init_accounted) as [Hc Ha].
  split_and!; try apply Ha.
  rewrite (spawned_accounted _ Ha). apply NoDup_seq.
Qed.

(** X14. A spawned mesh holds live GPU resources exactly as long as its
    target is tracked: while tracked, geometry and material are live; once
    the target is no longer tracked it has been torn down and both have been
    disposed.  No mesh is dropped from tracking with its resources still
    allocated. *)
Theorem gpu_resources_live_iff_tracked (events : list Event) (u : nat) :
  (u < nextUuid (run events init))%nat →
  ∃ m, meshes (run events init) !! u = Some m
       ∧ ((u ∈ ids (run events init)
           ∧ geometry m = Some Live ∧ material m = Some Live)
          ∨ ((u ∉ ids (run events init))
             ∧ u ∈ teardowns (effects (run events init))
             ∧ geometry m = Some Disposed ∧ material m = Some Disposed)).
Proof.
  intros Hu.
  destruct (run_accounted events init init_consistent init_accounted) as [Hc Ha].
  set (w := run events init) in *.
  assert (u ∈ ids w ++ teardowns (effects w)) as Hin.
  { rewrite (spawned_accounted w Ha), list_elem_of_In, in_seq. lia. }
  apply elem_of_app in Hin as [Hin|Hin].
  - pose proof Hin as (td & -> & Htd)%list_elem_of_fmap.
    destruct (tracked_linked w Hc td Htd) as (m & Hm & _ & Hg & Hr & _).
    destruct (consistent_tracked_shape w td Hc Htd) as (Hmesh & _ & _).
    rewrite Hmesh in Hm. exists m. split; [done|]. by left.
  - destruct (retired_released w Ha u Hin) as (m & ty & Hm & Hg & Hr & _).
    exists m. split; [done|]. right. split_and!; try done.
    by apply (teardowns_gone w Hc).
Qed.

Lemma gpu_resources_live_iff_tracked_witness :
  ∃ m, meshes one_retired !! 0%nat = Some m
       ∧ ((0%nat ∈ ids one_retired ∧ geometry m = Some Live ∧ material m = Some Live)
          ∨ ((0%nat ∉ ids one_retired)
             ∧ 0%nat ∈ teardowns (effects one_retired)
             ∧ geometry m = Some Disposed ∧ material m = Some Disposed)).
Proof.
  apply (gpu_resources_live_iff_tracked
           [AssetsReady; Frame 2 rest_physics (λ _, draw_8_10);
            Frame 2 rest_physics (λ _, draw_0); Frame 0 drop_physics (λ _, draw_0)] 0).
  vm_compute. lia.
Defined.

(** X15. Releases follow teardowns one for one: over a whole session the
    geometries disposed, the materials disposed and the bodies removed from
    the physics world are, in the same order, exactly the targets torn down,
    each of them once. *)
Theorem resources_released_once_per_teardown (events : list Event) :
  omap geometry_disposal_of (effects (run events init)) = teardowns (effects (run events init))
  ∧ omap material_disposal_of (effects (run events init))
    = teardowns (effects (run events init))
  ∧ omap body_removal_of (effects (run events init)) = teardowns (effects (run events init))
  ∧ NoDup (omap geometry_disposal_of (effects (run events init)))
  ∧ NoDup (omap material_disposal_of (effects (run events init)))
  ∧ NoDup (omap body_removal_of (effects (run events init))).
Proof.
  destruct (run_accounted events init init_consistent init_accounted) as [Hc Ha].
  rewrite (geometry_released _ Ha), (material_released _ Ha), (bodies_released _ Ha).
  split_and!; try done; apply (teardowns_unique _ Hc).
Qed.

(** X16. Registration mirrors tracking at every point of a session: the
    tracked ids are pairwise distinct; the scene holds the two lights, the
    ground and then the meshes of the tracked targets in array order; the
    physics world holds the ground body and then their bodies in array
    order; and every tracked target's mesh and body exist in the heap under
    the target's id. *)
Theorem registration_mirrors_tracking (events : list Event) :
  NoDup (ids (run events init))
  ∧ scene (run events init)
    = [AmbientLight; DirectionalLight; GroundMesh] ++ (TargetMesh <$> ids (run events init))
  ∧ physicsWorld (run events init) = GroundBody :: (TargetBody <$> ids (run events init))
  ∧ Forall (λ td, mesh td = id td ∧ body td = id td
                  ∧ is_Some (meshes (run events init) !! mesh td)
                  ∧ is_Some (bodies (run events init) !! body td))
      (targets (run events init)).
Proof.
  pose proof (run_consistent events init init_consistent) as Hc.
  split_and!; try apply Hc.
  apply Forall_forall. intros td Hin.
  destruct (consistent_tracked_shape _ td Hc Hin) as (Hmesh & Hbody & _).
  destruct (tracked_linked _ Hc td Hin) as (m & Hm & _ & _ & _ & Hb).
  split_and!; eauto.
Qed.

Lemma findIndex_absent {A} (P : A → Prop) `{∀ x, Decision (P x)} (l : list A) :
  (∀ x, x ∈ l → ¬ P x) → findIndex P l = None.
Proof.
  intros Hl. unfold findIndex.
  assert (list_find P l = None) as ->; [|done].
  by apply list_find_None, Forall_forall.
Qed.

(** X17. The branch "hit target not found" is what happens when the ray
    caster answers with the mesh of a target that has already been torn
    down: the mesh still carries its target data, so the shot is scored as a
    hit (the streak grows, the points are added, the hit sound plays), but
    nothing is torn down a second time, the tracking array is untouched and
    a warning is logged. *)
Theorem shot_at_retired_mesh_scores_without_teardown
    (events : list Event) (i0 : Intersection) (rest : list Intersection) (u : nat) :
  assetsLoaded (run events init) = true →
  object i0 = TargetMesh u →
  u ∈ teardowns (effects (run events init)) →
  ∃ td, userData_of (object i0) (run events init) = Some td
    ∧ id td = u
    ∧ shoot (i0 :: rest) (run events init)
      = emit (console_warn HitTargetNotFound) (processHit td (point i0) (run events init))
    ∧ targets (shoot (i0 :: rest) (run events init)) = targets (run events init)
    ∧ teardowns (effects (shoot (i0 :: rest) (run events init)))
      = teardowns (effects (run events init))
    ∧ consecutiveHits (shoot (i0 :: rest) (run events init))
      = consecutiveHits (run events init) + 1
    ∧ score (shoot (i0 :: rest) (run events init))
      = score (run events init) + pointsEarned td (point i0) (run events init).
Proof.
  intros Hready Hobj Hu.
  destruct (run_accounted events init init_consistent init_accounted) as [Hc Ha].
  set (w := run events init) in *.
  destruct (retired_released w Ha u Hu) as (m & ty & Hm & _ & _ & Hd).
  assert (userData_of (object i0) w = Some (mkTargetData u u ty u)) as Hud.
  { rewrite Hobj. cbn. by rewrite Hm. }
  assert (shoot (i0 :: rest) w
          = emit (console_warn HitTargetNotFound)
              (processHit (mkTargetData u u ty u) (point i0) w)) as Hshoot.
  { unfold shoot. rewrite Hready, Hud. cbn [negb].
    change (targets (processHit (mkTargetData u u ty u) (point i0) w)) with (targets w).
    rewrite findIndex_absent; [done|].
    intros t Hin Hid. cbn in Hid.
    apply (teardowns_gone w Hc) in Hu as [_ Hout]. apply Hout.
    rewrite <- Hid. apply list_elem_of_fmap. eauto. }
  exists (mkTargetData u u ty u). rewrite Hshoot. split_and!; try done.
  - cbn [effects emit]. rewrite teardowns_snoc. cbn [teardown_of from_option].
    rewrite app_nil_r.
    destruct (processHit_effects (mkTargetData u u ty u) (point i0) w)
      as (h & new & -> & _ & _ & _ & _ & Ht).
    by rewrite teardowns_app, Ht, app_nil_r.
  - unfold pointsEarned. change (score (emit ?e ?v)) with (score v). lia.
Qed.

Lemma shot_at_retired_mesh_scores_without_teardown_witness :
  ∃ td, userData_of (TargetMesh 0) one_retired = Some td
    ∧ targets (shoot [mkIntersection (TargetMesh 0) origin] one_retired)
      = targets one_retired
    ∧ consecutiveHits (shoot [mkIntersection (TargetMesh 0) origin] one_retired)
      = consecutiveHits one_retired + 1.
Proof.
  destruct (shot_at_retired_mesh_scores_without_teardown
              [AssetsReady; Frame 2 rest_physics (λ _, draw_8_10);
               Frame 2 rest_physics (λ _, draw_0); Frame 0 drop_physics (λ _, draw_0)]
              (mkIntersection (TargetMesh 0) origin) [] 0)
    as (td & Hud & _ & _ & Ht & _ & Hc & _).
  - vm_compute. reflexivity.
  - reflexivity.
  - vm_compute. apply list_elem_of_here.
  - exists td. split_and!; [exact Hud|exact Ht|exact Hc].
Defined.

(** ** Sounds *)

Lemma sounds_snoc (trace : list Effect) (e : Effect) :
  sounds (trace ++ [e]) = sounds trace ++ from_option (λ s, [s]) [] (sound_of e).
Proof. unfold sounds. rewrite omap_app. cbn. by destruct (sound_of e). Qed.

Lemma removeTarget_sounds td i w : sounds (effects (removeTarget td i w)) = sounds (effects w).
Proof.
  unfold removeTarget.
  repeat (case_match; cbn); rewrite ?sounds_snoc; cbn; by rewrite ?app_nil_r.
Qed.

Lemma syncCallback_sounds td k w : sounds (effects (syncCallback td k w)) = sounds (effects w).
Proof.
  unfold syncCallback. destruct (bodies w !! body td) as [b|]; [|done].
  case_match; [|done].
  rewrite removeTarget_sounds. cbn. rewrite sounds_snoc. cbn. by rewrite app_nil_r.
Qed.

Lemma forEach_from_sounds n k w :
  sounds (effects (forEach_from syncCallback n k w)) = sounds (effects w).
Proof.
  revert k w. induction n as [|n IH]; intros k w; cbn; [done|].
  rewrite IH. destruct (targets w !! k); [apply syncCallback_sounds|done].
Qed.

Lemma processMiss_sounds w :
  sounds (effects (processMiss w)) = sounds (effects w) ++ [(miss, None, (1 # 2)%Q)].
Proof.
  unfold processMiss. destruct (0 <? consecutiveHits w); cbn;
    rewrite !sounds_snoc; cbn; by rewrite ?app_nil_r.
Qed.

Lemma processHit_sounds td p w :
  sounds (effects (processHit td p w))
  = sounds (effects w) ++ [(sound (targetTypes (type td)), Some p, 1%Q)].
Proof.
  unfold processHit. cbn. rewrite !sounds_snoc. cbn. by rewrite app_nil_r.
Qed.

(** X18. Every shot taken once the assets are ready asks for exactly one
    sound: for a hit the sound of the target's type, placed at the hit point,
    at full volume; for a miss the miss sound, not placed, at half volume.
    Frames ask for none. *)
Theorem one_sound_per_shot (intersects : list Intersection) (deltaTime : Q)
    (integrate : nat → Body → Body) (rnd : nat → Draw) (w : World) :
  assetsLoaded w = true →
  sounds (effects (shoot intersects w))
  = sounds (effects w) ++ [sound_for (outcome_of intersects w)]
  ∧ sounds (effects (update deltaTime integrate rnd w)) = sounds (effects w).
Proof.
  intros Hready. split.
  - unfold shoot, outcome_of. rewrite Hready. cbn [negb].
    destruct intersects as [|i0 rest]; [apply processMiss_sounds|].
    destruct (userData_of (object i0) w) as [td|]; cbn [sound_for].
    + destruct (findIndex _ _) as [i|].
      * rewrite removeTarget_sounds. apply processHit_sounds.
      * rewrite emit_effects, sounds_snoc. cbn [sound_of from_option].
        rewrite app_nil_r. apply processHit_sounds.
    + rewrite processMiss_sounds, emit_effects, sounds_snoc. cbn [sound_of from_option].
      by rewrite app_nil_r.
  - rewrite update_advance by done. unfold targets_forEach.
    rewrite forEach_from_sounds, advance_spawn_due.
    destruct (spawn_due deltaTime w); [|done].
    unfold spawnTarget. cbn. rewrite !sounds_snoc. cbn. by rewrite !app_nil_r.
Qed.

Lemma one_sound_per_shot_witness :
  sounds (effects (shoot [mkIntersection (TargetMesh 1) origin] two_targets))
  = sounds (effects two_targets)
    ++ [sound_for (outcome_of [mkIntersection (TargetMesh 1) origin] two_targets)].
Proof.
  apply (one_sound_per_shot [mkIntersection (TargetMesh 1) origin] 0 rest_physics
           (λ _, draw_0) two_targets).
  vm_compute. reflexivity.
Defined.

(** ** Pointer coordinates *)

Lemma unit_fraction (a b : Q) : (0 < b)%Q → (0 <= a)%Q → (a <= b)%Q → (0 <= a / b <= 1)%Q.
Proof.
  intros Hb H0 H1. split.
  - apply Qle_shift_div_l; [done|]. lra.
  - apply Qle_shift_div_r; [done|]. lra.
Qed.

(** X19. Client coordinates inside the viewport are mapped to normalized
    device coordinates in [-1, 1] on both axes, with the vertical axis
    flipped: the left edge goes to x = -1 and the right edge to x = 1, the
    top edge to y = 1 and the bottom edge to y = -1. *)
Theorem pointer_maps_viewport_to_ndc (clientX clientY innerWidth innerHeight : Q) :
  (0 < innerWidth)%Q → (0 < innerHeight)%Q →
  (0 <= clientX <= innerWidth)%Q → (0 <= clientY <= innerHeight)%Q →
  (-1 <= pointer_x clientX innerWidth <= 1)%Q
  ∧ (-1 <= pointer_y clientY innerHeight <= 1)%Q
  ∧ (pointer_x 0 innerWidth == -1)%Q ∧ (pointer_x innerWidth innerWidth == 1)%Q
  ∧ (pointer_y 0 innerHeight == 1)%Q ∧ (pointer_y innerHeight innerHeight == -1)%Q.
Proof.
  intros HW HH [Hx0 Hx1] [Hy0 Hy1]. unfold pointer_x, pointer_y.
  destruct (unit_fraction clientX innerWidth HW Hx0 Hx1).
  destruct (unit_fraction clientY innerHeight HH Hy0 Hy1).
  assert (¬ innerWidth == 0)%Q by lra. assert (¬ innerHeight == 0)%Q by lra.
  split_and!; try lra; by field.
Qed.

Lemma pointer_maps_viewport_to_ndc_witness :
  (-1 <= pointer_x 200 800 <= 1)%Q ∧ (-1 <= pointer_y 450 600 <= 1)%Q.
Proof.
  destruct (pointer_maps_viewport_to_ndc 200 450 800 600) as (Hx & Hy & _).
  - reflexivity.
  - reflexivity.
  - split; by vm_compute.
  - split; by vm_compute.
  - split; [exact Hx|exact Hy].
Defined.

(** ** The frame that spawns *)

Lemma advance_due_body deltaTime integrate rnd w :
  spawn_due deltaTime w = true →
  bodies (advance deltaTime integrate rnd w) !! nextUuid w
  = Some (mkBody (spawn_position rnd) identity_quaternion
            (mkVec3 ((draw_val (rnd 4%nat) - (1 # 2)) * 2) (draw_val (rnd 5%nat) * 3)
               ((draw_val (rnd 6%nat) - (1 # 2)) * 2))%Q
            (mkVec3 ((draw_val (rnd 7%nat) - (1 # 2)) * 3) ((draw_val (rnd 8%nat) - (1 # 2)) * 3)
               ((draw_val (rnd 9%nat) - (1 # 2)) * 3))%Q).
Proof.
  intros Hdue. rewrite advance_spawn_due, Hdue.
  unfold spawnTarget. cbn. apply lookup_insert_eq.
Qed.

(** X20. A target is never pruned by the frame that spawns it: when a
    spawn is due, the target created under the fresh uuid is tracked at the
    end of that frame, because it starts at a height of at least 2. *)
Theorem spawned_target_survives_its_frame (deltaTime : Q) (integrate : nat → Body → Body)
    (rnd : nat → Draw) (w : World) :
  assetsLoaded w = true →
  spawn_due deltaTime w = true →
  mkTargetData (nextUuid w) (nextUuid w) (randomTypeKey (rnd 0%nat)) (nextUuid w)
  ∈ targets (update deltaTime integrate rnd w).
Proof.
  intros Hready Hdue. rewrite update_advance by done.
  apply forEach_from_keeps_above.
  - rewrite advance_spawn_due, Hdue.
    change (mkTargetData (nextUuid w) (nextUuid w) (randomTypeKey (rnd 0%nat)) (nextUuid w)
            ∈ targets w ++ [mkTargetData (nextUuid w) (nextUuid w)
                              (randomTypeKey (rnd 0%nat)) (nextUuid w)]).
    apply elem_of_app. right. apply list_elem_of_here.
  - unfold below_floor. cbn [body].
    rewrite (advance_due_body deltaTime integrate rnd w Hdue).
    cbn [body_position spawn_position vy].
    destruct (spawn_position_ranges rnd) as (_ & [Hy _] & _). cbn [spawn_position vy] in Hy.
    unfold Qltb. apply negb_false_iff, Qle_bool_iff. lra.
Qed.

Lemma spawned_target_survives_its_frame_witness :
  mkTargetData 0 0 (randomTypeKey draw_0) 0
  ∈ targets (update 2 drop_physics (λ _, draw_0) (onLoad init)).
Proof.
  apply (spawned_target_survives_its_frame 2 drop_physics (λ _, draw_0) (onLoad init));
    reflexivity.
Defined.
